(** * Resource discovery in the NAVO workshop notebook [UseCase_III.ipynb]

    A shallow embedding of the discovery steps of the notebook: the two
    helper functions [getrow] and [getunique], the two cells that look a
    bibcode up (the [np.where] cell and the [for ... break] cell) and the two
    cells that pick a table name (the [in] loop and the [startswith] loop),
    followed by the properties of the resource-discovery specification.

    Python values are rendered as follows.
    - A [str] is the list of its Unicode code points.
    - An [int] used as an index is a [Z]; indexing follows Python: a negative
      index counts from the end, anything else out of range raises
      [IndexError].  The registry collection takes an index of the size of
      the machine word ([machine_index]); what it does with a larger one is
      not modelled, and no statement is made about such an index out of
      range.
    - An exception ends the computation: [exc A] is either a value or the
      exception raised.
    - A [list] is a [list], and [append] adds at the end.  The two functions
      are given a second time on a store of list objects, where a list is
      known by a reference and [append] updates the store; this is the form
      in which one can say what a call leaves untouched.  The two forms
      return the same lists ([getrow_store_run], [getunique_store_run]).
    - A notebook cell runs in the [session] of the kernel: the global names it
      binds on some paths only, and the lines printed so far. *)

From Stdlib Require Import ZArith Lia.
From stdpp Require Import base tactics option list list_numbers sorting strings
  gmap.

Local Open Scope Z_scope.

(* ===================================================================== *)
(** * Python values *)
(* ===================================================================== *)

(** A Python [str]: the sequence of its code points. *)
Abbreviation str := (list N).

(** The code points of a literal written in ASCII. *)
Definition lit (s : string) : str :=
  map Ascii.N_of_ascii (String.list_ascii_of_string s).
Arguments lit s%_string.

(** The exceptions the notebook code can raise. *)
Inductive exn : Type :=
| AttributeError
| TypeError
| IndexError
| NameError.

(** A computation that returns a value or raises. *)
Inductive exc (A : Type) : Type :=
| Ret (a : A)
| Raise (e : exn).
Arguments Ret {A} a.
Arguments Raise {A} e.

Definition bind {A B} (m : exc A) (k : A → exc B) : exc B :=
  match m with
  | Ret a => k a
  | Raise e => Raise e
  end.

Declare Scope exc_scope.
Delimit Scope exc_scope with exc.
Notation "x <- m ;; k" := (bind m (fun x => k))
  (at level 100, m at next level, right associativity) : exc_scope.
Local Open Scope exc_scope.

#[global] Instance exn_eq_dec : EqDecision exn.
Proof. solve_decision. Defined.

(** [seq[k]] on a Python sequence. *)
Definition getitem {A} (l : list A) (k : Z) : exc A :=
  let n := Z.of_nat (length l) in
  let pos := if k <? 0 then k + n else k in
  if (0 <=? pos) && (pos <? n) then
    match l !! Z.to_nat pos with
    | Some x => Ret x
    | None => Raise IndexError
    end
  else Raise IndexError.

(** [range(n)]. *)
Definition range (n : nat) : list Z := map Z.of_nat (seq 0 n).

(** [c.isspace()] for one code point: the characters [str.split()] treats as
    separators. *)
Definition isspace (c : N) : bool :=
  ((9 <=? c) && (c <=? 13) || (28 <=? c) && (c <=? 32)
   || (c =? 133) || (c =? 160) || (c =? 5760)
   || (8192 <=? c) && (c <=? 8202)
   || (c =? 8232) || (c =? 8233) || (c =? 8239) || (c =? 8287)
   || (c =? 12288))%N.

(** [s.split()]: the maximal runs of non-space characters of [s], in order.
    [cur] is the run being read. *)
Fixpoint split_from (cur : str) (s : str) : list str :=
  match s with
  | [] => match cur with [] => [] | _ => [cur] end
  | c :: rest =>
      if isspace c then
        match cur with
        | [] => split_from [] rest
        | _ => cur :: split_from [] rest
        end
      else split_from (cur ++ [c]) rest
  end.

Definition split (s : str) : list str := split_from [] s.

(** [name.startswith(short)]. *)
Fixpoint startswith (name short : str) {struct short} : bool :=
  match short, name with
  | [], _ => true
  | _ :: _, [] => false
  | c :: short', d :: name' => bool_decide (c = d) && startswith name' short'
  end.

(** [each in text] for two strings: [each] occurs in [text] as a contiguous
    run of characters. *)
Fixpoint contains (text each : str) : bool :=
  startswith text each ||
  match text with
  | [] => false
  | _ :: text' => contains text' each
  end.

(** [each in container] where the container may be [None]. *)
Definition py_in (each : str) (container : option str) : exc bool :=
  match container with
  | Some text => Ret (contains text each)
  | None => Raise TypeError
  end.

(* ===================================================================== *)
(** * Registry records *)
(* ===================================================================== *)

(** Modelled from the spec: the class of the records belongs to the registry
    client and is not part of the notebooks.  The fields are the attributes
    the notebook reads, typed as the ResourceRecord of the specification:
    strings, an ordered sequence of creators, and a description that is free
    text, possibly empty ([Some []]), and may be missing altogether
    ([None]).  [source_value] is the bibcode, empty where there is none. *)
Record RegistryResource : Type := {
  short_name : str;
  ivoid : str;
  res_description : option str;
  creators : list str;
  source_value : str;
  access_url : str
}.

(** [row.short_name], under a name that the local list [short_name] of
    [getunique] does not hide. *)
Definition attr_short_name (row : RegistryResource) : str := short_name row.

(* ===================================================================== *)
(** * [getrow]: the keyword filter *)
(* ===================================================================== *)

(** The inner loop [for each in keys], for the row [i]. *)
Fixpoint getrow_keys (result : list RegistryResource) (i : Z)
    (keys : list str) (n_match : nat) : exc nat :=
  match keys with
  | [] => Ret n_match
  | each :: keys' =>
      row <- getitem result i ;;
      hit <- py_in each (res_description row) ;;
      getrow_keys result i keys' (if hit then (n_match + 1)%nat else n_match)
  end.

(** The outer loop [for i in range(len(result.to_table()))]; [ind] and
    [n_match] are the two variables it updates. *)
Fixpoint getrow_rows (result : list RegistryResource) (keys : list str)
    (n_keys : nat) (todo : list Z) (ind : list Z) (n_match : nat)
    : exc (list Z) :=
  match todo with
  | [] => Ret ind
  | i :: todo' =>
      n_match <- getrow_keys result i keys n_match ;;
      let ind := if (n_match =? n_keys)%nat then ind ++ [i] else ind in
      let n_match := 0%nat in
      getrow_rows result keys n_keys todo' ind n_match
  end.

(** [getrow(result, keywords=None)]. *)
Definition getrow (result : list RegistryResource) (keywords : option str)
    : exc (list Z) :=
  let ind := [] in
  match keywords with
  | None => Raise AttributeError
  | Some keywords =>
      let keys := split keywords in
      let n_keys := length keys in
      let n_match := 0%nat in
      getrow_rows result keys n_keys (range (length result)) ind n_match
  end.

(* ===================================================================== *)
(** * [getunique]: one index per short name *)
(* ===================================================================== *)

(** The loop [for i in range(len(ind))]; [short_name] and [unique_ind] are
    the two lists it appends to. *)
Fixpoint getunique_loop (result : list RegistryResource) (ind : list Z)
    (todo : list Z) (short_name : list str) (unique_ind : list Z)
    : exc (list Z) :=
  match todo with
  | [] => Ret unique_ind
  | i :: todo' =>
      k <- getitem ind i ;;
      row <- getitem result k ;;
      let short := attr_short_name row in
      if bool_decide (short ∉ short_name) then
        getunique_loop result ind todo' (short_name ++ [short])
          (unique_ind ++ [k])
      else getunique_loop result ind todo' short_name unique_ind
  end.

(** [getunique(result, ind)]. *)
Definition getunique (result : list RegistryResource) (ind : list Z)
    : exc (list Z) :=
  getunique_loop result ind (range (length ind)) [] [].

(* ===================================================================== *)
(** * The two functions on a store of list objects *)
(* ===================================================================== *)

(** A Python list is an object: a call receives and returns references to
    lists, and [append] changes the list it is applied to.  The store maps
    every reference in use to the list behind it.  A reference outside the
    store, or to a list of the other kind, does not arise in the two
    functions; the operations below raise on it. *)
Inductive obj : Type :=
| IntList (items : list Z)
| StrList (items : list str).

(** A computation on the store: its outcome and the store it leaves. *)
Definition run (A : Type) : Type := gmap nat obj → exc A * gmap nat obj.

Definition unit_run {A} (a : A) : run A := λ h, (Ret a, h).

Definition lift {A} (m : exc A) : run A := λ h, (m, h).

Definition bind_run {A B} (m : run A) (k : A → run B) : run B :=
  λ h, match m h with
       | (Ret a, h') => k a h'
       | (Raise e, h') => (Raise e, h')
       end.

Declare Scope run_scope.
Delimit Scope run_scope with run.
Bind Scope run_scope with run.
Notation "x <- m ;; k" := (bind_run m (fun x => k))
  (at level 100, m at next level, right associativity) : run_scope.

(** A list display or the result of [split()]: a new object. *)
Definition new_list (o : obj) : run nat :=
  λ h, let l := fresh (dom h) in (Ret l, <[l := o]> h).

(** [len(l)]. *)
Definition len (l : nat) : run nat :=
  λ h, match h !! l with
       | Some (IntList items) => (Ret (length items), h)
       | Some (StrList items) => (Ret (length items), h)
       | None => (Raise NameError, h)
       end.

(** [l[k]] on a list of integers. *)
Definition item (l : nat) (k : Z) : run Z :=
  λ h, match h !! l with
       | Some (IntList items) => (getitem items k, h)
       | _ => (Raise TypeError, h)
       end.

(** The strings of a list, as [for each in l] and [x in l] go through
    them. *)
Definition strings (l : nat) : run (list str) :=
  λ h, match h !! l with
       | Some (StrList items) => (Ret items, h)
       | _ => (Raise TypeError, h)
       end.

(** [l.append(v)]. *)
Definition append_int (l : nat) (v : Z) : run unit :=
  λ h, match h !! l with
       | Some (IntList items) => (Ret tt, <[l := IntList (items ++ [v])]> h)
       | _ => (Raise AttributeError, h)
       end.

Definition append_str (l : nat) (v : str) : run unit :=
  λ h, match h !! l with
       | Some (StrList items) => (Ret tt, <[l := StrList (items ++ [v])]> h)
       | _ => (Raise AttributeError, h)
       end.

(** The list of integers a computation returns a reference to. *)
Definition returned (r : exc nat * gmap nat obj) : exc (list Z) :=
  match r with
  | (Ret l, h) =>
      match h !! l with
      | Some (IntList items) => Ret items
      | _ => Raise TypeError
      end
  | (Raise e, _) => Raise e
  end.

(** The outer loop of [getrow]; [keys] and [ind] are references. *)
Fixpoint getrow_rows_store (result : list RegistryResource) (keys : nat)
    (n_keys : nat) (todo : list Z) (ind : nat) (n_match : nat) : run unit :=
  match todo with
  | [] => unit_run tt
  | i :: todo' =>
      (each_of_keys <- strings keys ;;
       n_match <- lift (getrow_keys result i each_of_keys n_match) ;;
       _ <- (if (n_match =? n_keys)%nat then append_int ind i
             else unit_run tt) ;;
       let n_match := 0%nat in
       getrow_rows_store result keys n_keys todo' ind n_match)%run
  end.

(** [getrow(result, keywords=None)], returning a reference to [ind]. *)
Definition getrow_store (result : list RegistryResource)
    (keywords : option str) : run nat :=
  (ind <- new_list (IntList []) ;;
   keywords <- lift (match keywords with
                     | Some keywords => Ret keywords
                     | None => Raise AttributeError
                     end) ;;
   keys <- new_list (StrList (split keywords)) ;;
   n_keys <- len keys ;;
   _ <- getrow_rows_store result keys n_keys (range (length result)) ind 0 ;;
   unit_run ind)%run.

(** The loop of [getunique]; [ind], [short_name] and [unique_ind] are
    references. *)
Fixpoint getunique_loop_store (result : list RegistryResource) (ind : nat)
    (todo : list Z) (short_name unique_ind : nat) : run unit :=
  match todo with
  | [] => unit_run tt
  | i :: todo' =>
      (k <- item ind i ;;
       row <- lift (getitem result k) ;;
       let short := attr_short_name row in
       names <- strings short_name ;;
       _ <- (if bool_decide (short ∉ names) then
               _ <- append_str short_name short ;;
               k <- item ind i ;;
               append_int unique_ind k
             else unit_run tt) ;;
       getunique_loop_store result ind todo' short_name unique_ind)%run
  end.

(** [getunique(result, ind)], from a reference to [ind] to a reference to
    [unique_ind]. *)
Definition getunique_store (result : list RegistryResource) (ind : nat)
    : run nat :=
  (short_name <- new_list (StrList []) ;;
   unique_ind <- new_list (IntList []) ;;
   n <- len ind ;;
   _ <- getunique_loop_store result ind (range n) short_name unique_ind ;;
   unit_run unique_ind)%run.

(* ===================================================================== *)
(** * The notebook session and its cells *)
(* ===================================================================== *)

(** The global names the lookup cells bind only on some paths, with the
    lines printed so far.  [None] is a name that is not bound. *)
Record session : Type := {
  idx : option Z;
  myidx : option Z;
  tablename : option str;
  stdout : list str
}.

(** A kernel that has run none of the lookup cells. *)
Definition fresh_session : session :=
  {| idx := None; myidx := None; tablename := None; stdout := [] |}.

Definition set_idx (v : Z) (ses : session) : session :=
  {| idx := Some v; myidx := myidx ses; tablename := tablename ses;
     stdout := stdout ses |}.

Definition set_myidx (v : Z) (ses : session) : session :=
  {| idx := idx ses; myidx := Some v; tablename := tablename ses;
     stdout := stdout ses |}.

Definition set_tablename (v : str) (ses : session) : session :=
  {| idx := idx ses; myidx := myidx ses; tablename := Some v;
     stdout := stdout ses |}.

(** [print(line)]. *)
Definition print (line : str) (ses : session) : session :=
  {| idx := idx ses; myidx := myidx ses; tablename := tablename ses;
     stdout := stdout ses ++ [line] |}.

(** Reading a global name. *)
Definition read {A} (name : option A) : exc A :=
  match name with
  | Some v => Ret v
  | None => Raise NameError
  end.

(** ** The bibcode cells *)

(** A string as an array of strings holds it: the array pads its entries
    with NUL characters to one width, so the NUL characters at the end of a
    string do not count. *)
Fixpoint rstrip_nul (s : str) : str :=
  match s with
  | [] => []
  | c :: s' =>
      match rstrip_nul s' with
      | [] => if bool_decide (c = 0%N) then [] else [c]
      | r => c :: r
      end
  end.

(** [np.where(column == x)]: the positions of the entries equal to [x].  The
    comparison of the array is made on the padded strings: two strings are
    equal for it when they differ in NUL characters at the end only. *)
Fixpoint np_where_eq (column : list str) (x : str) (i : Z) : list Z :=
  match column with
  | [] => []
  | v :: column' =>
      if bool_decide (rstrip_nul v = rstrip_nul x)
      then i :: np_where_eq column' x (i + 1)
      else np_where_eq column' x (i + 1)
  end.

(** [column[match]] for an index array produced by [np.where]. *)
Fixpoint np_take {A} (column : list A) (positions : list Z) : exc (list A) :=
  match positions with
  | [] => Ret []
  | k :: positions' =>
      v <- getitem column k ;;
      vs <- np_take column positions' ;;
      Ret (v :: vs)
  end.

(** The cell with [match = np.where(all_bibcodes == bibcode)] and
    [url = all_accessurl[match]]: the values it binds to [match] and [url].
    The two tables it prints are renderings of this selection. *)
Definition bibcode_where (tap_services : list RegistryResource)
    (bibcode : str) : exc (list Z * list str) :=
  let all_bibcodes := map source_value tap_services in
  let all_accessurl := map access_url tap_services in
  let match_ := np_where_eq all_bibcodes bibcode 0 in
  url <- np_take all_accessurl match_ ;;
  Ret (match_, url).

(** The line of the f-string
    [{s['short_name']}, {s['source_value']}, {s['access_url']}]. *)
Definition bibcode_line (s : RegistryResource) : str :=
  short_name s ++ lit ", " ++ source_value s ++ lit ", " ++ access_url s.

(** The loop [for s in tap_services.to_table()] with its [break];
    [i] is the value of [idx] on entry. *)
Fixpoint bibcode_scan (rows : list RegistryResource) (bibcode : str)
    (i : Z) (ses : session) : session :=
  match rows with
  | [] => ses
  | s :: rows' =>
      let i := i + 1 in
      let ses := set_idx i ses in
      if contains (source_value s) bibcode then
        print (bibcode_line s) (set_myidx i ses)
      else bibcode_scan rows' bibcode i ses
  end.

(** The whole cell: [idx=-1], the loop, and [myTAP=tap_services[myidx]].
    The outcome is the record bound to [myTAP], or the exception that stops
    the cell. *)
Definition bibcode_cell (tap_services : list RegistryResource)
    (bibcode : str) (ses : session) : exc RegistryResource * session :=
  let ses := set_idx (-1) ses in
  let ses := bibcode_scan tap_services bibcode (-1) ses in
  (k <- read (myidx ses) ;; getitem tap_services k, ses).

(** ** The table-name cells *)

(** The first loop over [tables.keys()]:
    [if short_name in name: print(name)]. *)
Fixpoint in_cell (names : list str) (short : str) (ses : session)
    : session :=
  match names with
  | [] => ses
  | name :: names' =>
      in_cell names' short
        (if contains name short then print name ses else ses)
  end.

(** The second, more restricted loop:
    [if name.startswith(short_name): print(name); tablename=name]. *)
Fixpoint startswith_cell (names : list str) (short : str) (ses : session)
    : session :=
  match names with
  | [] => ses
  | name :: names' =>
      startswith_cell names' short
        (if startswith name short then set_tablename name (print name ses)
         else ses)
  end.

(** The format ['SELECT * FROM "%s"' % t]; 34 is the double quote. *)
Definition select_from (t : str) : str :=
  lit "SELECT * FROM " ++ [34%N] ++ t ++ [34%N].

(** The first two statements of the next cell:
    [query = 'SELECT * FROM "%s"' %tablename] and [print(query)]. *)
Definition query_cell (ses : session) : exc str * session :=
  match read (tablename ses) with
  | Ret t =>
      let query := select_from t in
      (Ret query, print query ses)
  | Raise e => (Raise e, ses)
  end.

(** The two cells in a row, as run for picking the table of a query. *)
Definition resolve_cells (names : list str) (short : str) (ses : session)
    : exc str * session :=
  query_cell (startswith_cell names short ses).

(* ===================================================================== *)
(** * Vocabulary of the specification *)
(* ===================================================================== *)

#[global] Instance exc_eq_dec {A} `{EqDecision A} : EqDecision (exc A).
Proof. solve_decision. Defined.

(** [each] is a substring of [text]. *)
Definition occurs_in (each text : str) : Prop :=
  ∃ before after, text = before ++ each ++ after.

(** [k] is an index Python accepts for [l]. *)
Definition valid_index {A} (l : list A) (k : Z) : Prop :=
  - Z.of_nat (length l) ≤ k < Z.of_nat (length l).

(** [k] fits the signed machine word of 64 bits.  The registry collection
    hands an index to the table of the client library, which takes such an
    index; an index beyond it is refused there before any bound is
    checked, and the statements about an index out of range are made for
    indices of this size. *)
Definition machine_index (k : Z) : Prop := - 2 ^ 63 ≤ k < 2 ^ 63.

(** The row [i] has a description in which every one of [keys] occurs. *)
Definition row_matches (result : list RegistryResource) (keys : list str)
    (i : Z) : bool :=
  match getitem result i with
  | Ret row =>
      match res_description row with
      | Some text => forallb (contains text) keys
      | None => false
      end
  | Raise _ => false
  end.

(** A keyword as [split] produces them: not empty, no white space inside. *)
Definition is_word (w : str) : Prop :=
  w ≠ [] ∧ Forall (λ c, isspace c = false) w.

(** The words joined by single blanks. *)
Fixpoint unwords (ws : list str) : str :=
  match ws with
  | [] => []
  | [w] => w
  | w :: ws' => w ++ [32%N] ++ unwords ws'
  end.

(** [result[k].short_name]. *)
Definition shortName_at (result : list RegistryResource) (k : Z) : exc str :=
  row <- getitem result k ;; Ret (short_name row).

(** The deduplication in the words of the specification: walk the indices
    in order and keep an index exactly when no earlier index of the sequence
    has a record with the same short name.  [earlier] holds the indices
    walked so far. *)
Fixpoint keep_first_from (result : list RegistryResource)
    (earlier : list Z) (ind : list Z) : list Z :=
  match ind with
  | [] => []
  | k :: ind' =>
      (if existsb
            (λ k', bool_decide (shortName_at result k' = shortName_at result k))
            earlier
       then [] else [k])
      ++ keep_first_from result (earlier ++ [k]) ind'
  end.

Definition keep_first (result : list RegistryResource) (ind : list Z)
    : list Z :=
  keep_first_from result [] ind.

(** The short name of [result[k]], as a plain string: empty where the index
    is out of range. *)
Definition name_of (result : list RegistryResource) (k : Z) : str :=
  match getitem result k with
  | Ret row => short_name row
  | Raise _ => []
  end.

(** What the loop of [getunique] appends to [unique_ind] while it walks
    [ind] with the names [seen] already in its list [short_name]. *)
Fixpoint keep_new (result : list RegistryResource) (seen : list str)
    (ind : list Z) : list Z :=
  match ind with
  | [] => []
  | k :: ind' =>
      if bool_decide (name_of result k ∈ seen) then keep_new result seen ind'
      else k :: keep_new result (seen ++ [name_of result k]) ind'
  end.

(** The three outcomes the specification gives to table-name resolution. *)
Inductive resolution : Type :=
| Resolved (t : str)
| NotFound
| Ambiguous (candidates : list str).

(** Table-name resolution in the words of the specification. *)
Definition resolveTableName_spec (tableNames : list str) (shortName : str)
    : resolution :=
  match filter (λ name, shortName `prefix_of` name) tableNames with
  | [] => NotFound
  | [t] => Resolved t
  | candidates => Ambiguous candidates
  end.

(** A notebook cell is pure when its outcome does not depend on the session
    it runs in and it leaves that session as it found it. *)
Definition pure_op {I O} (op : I → session → exc O * session) : Prop :=
  ∀ (i : I) (s1 s2 : session),
    (op i s1).1 = (op i s2).1 ∧ (op i s1).2 = s1.

(** ** Sample data *)

Definition resource (name description bibcode url : string)
    : RegistryResource :=
  {| short_name := lit name;
     ivoid := lit "ivo://CDS.VizieR/" ++ lit name;
     res_description := Some (lit description);
     creators := [];
     source_value := lit bibcode;
     access_url := lit url |}.

(** The same, but registered without any description. *)
Definition undescribed (name bibcode url : string) : RegistryResource :=
  {| short_name := lit name;
     ivoid := lit "ivo://CDS.VizieR/" ++ lit name;
     res_description := None;
     creators := [];
     source_value := lit bibcode;
     access_url := lit url |}.

(** Five records; the second and the fourth mention both [magnitude] and
    [color]. *)
Definition five : list RegistryResource :=
  [ resource "I/259" "Positions and proper motions" "" "";
    resource "I/90" "Photovisual magnitude and color index of Pleiades stars"
      "1970MmRAS..73..125E" "http://tapvizier.u-strasbg.fr/TAPVizieR/tap";
    resource "J/A+A/329/101" "Color of members, Magnitude limited" "" "";
    resource "II/131" "UBV color and magnitude data" "" "";
    resource "V/19" "" "" "" ].

(** The five records with the last one registered without a description:
    still the second and the fourth, and no other, mention both
    [magnitude] and [color]. *)
Definition five_last_undescribed : list RegistryResource :=
  take 4 five ++ [undescribed "V/19" "" ""].

(** Eight records; those at 1, 4 and 7 share the short name [VizierX]. *)
Definition eight : list RegistryResource :=
  [ resource "A" "" "" ""; resource "VizierX" "" "" "";
    resource "B" "" "" ""; resource "C" "" "" "";
    resource "VizierX" "" "" ""; resource "D" "" "" "";
    resource "E" "" "" ""; resource "VizierX" "" "" "" ].

(** [bibcode = '1970MmRAS..73..125E'], the first statement of the two cells
    that look up the paper of Eichhorn. *)
Definition eichhorn_bibcode : str := lit "1970MmRAS..73..125E".

(** Two records for that bibcode: the first names it after the bibcode of
    another paper, the second has it as its [source_value]. *)
Definition two_sources : list RegistryResource :=
  [ resource "J/A+A/329/101" "Pleiades low-mass binaries"
      "1998A&A...329..101R 1970MmRAS..73..125E" "http://tap.example.org/tap";
    resource "I/90" "Photovisual magnitude and color index of Pleiades stars"
      "1970MmRAS..73..125E" "http://tapvizier.u-strasbg.fr/TAPVizieR/tap" ].

(** A kernel in which earlier cells have bound [myidx] and [tablename]. *)
Definition used : session :=
  {| idx := Some 4; myidx := Some 0;
     tablename := Some (lit "J/A+A/329/101/table"); stdout := [] |}.

(* ===================================================================== *)
(** * The calls of the two functions and the other lookups of the notebook *)
(* ===================================================================== *)

(** The test of [getrow] on the row [i]: [n_match == n_keys] after the inner
    loop.  With no key the count stays at zero and every row passes. *)
Definition row_passes (result : list RegistryResource) (keys : list str)
    (i : Z) : bool :=
  match keys with
  | [] => true
  | _ => row_matches result keys i
  end.

(** The two calls [ind = getrow(tap_services, keywords=...)] and
    [uniq_ind=getunique(tap_services, ind)]: the lists bound to [ind] and
    to [uniq_ind]. *)
Definition discover (tap_services : list RegistryResource) (keywords : str)
    : exc (list Z * list Z) :=
  ind <- getrow tap_services (Some keywords) ;;
  uniq_ind <- getunique tap_services ind ;;
  Ret (ind, uniq_ind).

(** [tap_services[uniq_ind[0]]], the service the later cells describe and
    query. *)
Definition first_unique (tap_services : list RegistryResource)
    (uniq_ind : list Z) : exc RegistryResource :=
  k <- getitem uniq_ind 0 ;; getitem tap_services k.

(** The two calls on the store: references to [ind] and to [uniq_ind]. *)
Definition discover_store (tap_services : list RegistryResource)
    (keywords : str) : run (nat * nat) :=
  (ind <- getrow_store tap_services (Some keywords) ;;
   uniq_ind <- getunique_store tap_services ind ;;
   unit_run (ind, uniq_ind))%run.

(** The items of the list of integers behind a reference. *)
Definition int_items (h : gmap nat obj) (l : nat) : option (list Z) :=
  match h !! l with
  | Some (IntList items) => Some items
  | _ => None
  end.

(** ** The search by author *)

(** The loop [for record in resources] of the author cell: [names[0]] is the
    first creator, [np.append] puts the access url at the end of [url]. *)
Fixpoint author_loop (resources : list RegistryResource) (url : list str)
    : exc (list str) :=
  match resources with
  | [] => Ret url
  | record :: resources' =>
      let names := creators record in
      first <- getitem names 0 ;;
      if contains first (lit "Eichhorn")
      then author_loop resources' (url ++ [access_url record])
      else author_loop resources' url
  end.

(** The author cell: [url=np.array([])] and the loop; the value of [url]. *)
Definition author_cell (resources : list RegistryResource)
    : exc (list str) :=
  author_loop resources [].

(** Whether the first creator of a record mentions the author. *)
Definition first_creator_is_Eichhorn (record : RegistryResource) : bool :=
  match creators record with
  | first :: _ => contains first (lit "Eichhorn")
  | [] => false
  end.

(** ** The second lookup by bibcode *)

(** [int(a)] for an index array.  An array of no or of several elements is
    refused with [TypeError] by every version of the array library; an array
    of one element is converted by the versions that still take an array of
    one dimension for a scalar ([converts_one_element]) and refused with
    [TypeError] by the later ones. *)
Definition int_of_array (converts_one_element : bool) (a : list Z) : exc Z :=
  match a with
  | [k] => if converts_one_element then Ret k else Raise TypeError
  | _ => Raise TypeError
  end.

(** Several lines written to the output, as [describe()] does. *)
Definition print_lines (lines : list str) (ses : session) : session :=
  {| idx := idx ses; myidx := myidx ses; tablename := tablename ses;
     stdout := stdout ses ++ lines |}.

(** The cell with [short_name = all_shortnames[match][0]],
    [ind = int(match[0])] and [tap_services[ind].describe()]: the values
    bound to [short_name] and [ind] with the record [tap_services[ind]], or
    the exception that stops the cell.  The two [print] calls come between
    the two bindings, and the lines of [describe()], a method of the client
    library taken as the parameter [describe], come last. *)
Definition bibcode_index_cell (describe : RegistryResource → list str)
    (converts_one_element : bool) (tap_services : list RegistryResource)
    (bibcode : str) (ses : session)
    : exc (str * Z * RegistryResource) * session :=
  let all_bibcodes := map source_value tap_services in
  let all_shortnames := map short_name tap_services in
  let match_ := np_where_eq all_bibcodes bibcode 0 in
  match (selected <- np_take all_shortnames match_ ;; getitem selected 0) with
  | Raise e => (Raise e, ses)
  | Ret short =>
      let ses := print (lit "----------") (print short ses) in
      match (ind <- int_of_array converts_one_element match_ ;;
             row <- getitem tap_services ind ;;
             Ret (ind, row)) with
      | Raise e => (Raise e, ses)
      | Ret (ind, row) =>
          (Ret (short, ind, row), print_lines (describe row) ses)
      end
  end.

(** The loop of the cell after it:
    [if short_name in name: tablename = name]. *)
Fixpoint in_assign_cell (names : list str) (short : str) (ses : session)
    : session :=
  match names with
  | [] => ses
  | name :: names' =>
      in_assign_cell names' short
        (if contains name short then set_tablename name ses else ses)
  end.

(** That loop followed by [query = 'SELECT * FROM "%s"' %tablename] and
    [print(query)]. *)
Definition in_assign_query (names : list str) (short : str) (ses : session)
    : exc str * session :=
  query_cell (in_assign_cell names short ses).

(* ===================================================================== *)
(** * Selections in [UseCase_II.ipynb] *)
(* ===================================================================== *)

(** The record of an image search, with the attributes the notebook
    reads.  Its class belongs to the client library. *)
Record SIARecord : Type := {
  title : str;
  bandpass_id : str;
  format : str
}.

(** [[s for s in uv_services if 'GALEX' in s.short_name and
    'stsci' in s.ivoid][0]]. *)
Definition galex_stsci (uv_services : list RegistryResource)
    : exc RegistryResource :=
  getitem
    (List.filter
       (λ s, contains (short_name s) (lit "GALEX")
             && contains (ivoid s) (lit "stsci"))
       uv_services)
    0.

(** [[s for s in uv_services if 'GALEX' in s.short_name and
    'heasarc' in s.ivoid][0]]. *)
Definition galex_heasarc (uv_services : list RegistryResource)
    : exc RegistryResource :=
  getitem
    (List.filter
       (λ s, contains (short_name s) (lit "GALEX")
             && contains (ivoid s) (lit "heasarc"))
       uv_services)
    0.

(** [[x for x in xim_table if 'image/fits' in x.format][0]]. *)
Definition first_fits_image_row (xim_table : list SIARecord)
    : exc SIARecord :=
  getitem
    (List.filter (λ x, contains (format x) (lit "image/fits")) xim_table) 0.

(** A loop [for v in table: if test: break]: the value of the loop variable
    [v] after it, from its value before it. *)
Fixpoint for_break {A} (test : A → bool) (table : list A) (v : option A)
    : option A :=
  match table with
  | [] => v
  | x :: table' =>
      let v := Some x in
      if test x then v else for_break test table' v
  end.

(** The cell [for allwise_image_record in allwise_image_table: if 'W1' in
    allwise_image_record.bandpass_id: break] with the [print] after it: the
    line printed and the loop variable. *)
Definition allwise_cell (allwise_image_table : list SIARecord)
    (allwise_image_record : option SIARecord)
    : exc str * option SIARecord :=
  let allwise_image_record :=
    for_break (λ r, contains (bandpass_id r) (lit "W1"))
      allwise_image_table allwise_image_record in
  (r <- read allwise_image_record ;;
   Ret (title r ++ lit " " ++ bandpass_id r),
   allwise_image_record).


(** The search of the last cell: [found = None], then
    [for record in table: if test: found = record; break]. *)
Fixpoint search_from {A} (test : A → bool) (table : list A)
    (found : option A) : option A :=
  match table with
  | [] => found
  | record :: table' =>
      if test record then Some record else search_from test table' found
  end.

(** [allwise_image_record] in the last cell. *)
Definition allwise_search (allwise_image_table : list SIARecord)
    : option SIARecord :=
  let allwise_image_record := None in
  search_from (λ record, contains (bandpass_id record) (lit "W1"))
    allwise_image_table allwise_image_record.


(** ** Vocabulary for the selections *)

(** [x] is the first element of [l] with the property [P]. *)
Definition first_with {A} (P : A → Prop) (l : list A) (x : A) : Prop :=
  ∃ before after,
    l = before ++ x :: after ∧ P x ∧ Forall (λ y, ¬ P y) before.

(** ** More sample data *)

(** A record with creators. *)
Definition authored (name : string) (authors : list string) (url : string)
    : RegistryResource :=
  {| short_name := lit name;
     ivoid := lit "ivo://CDS.VizieR/" ++ lit name;
     res_description := Some [];
     creators := map lit authors;
     source_value := [];
     access_url := lit url |}.

Definition three_authored : list RegistryResource :=
  [ authored "I/90" ["Eichhorn H."; "Googe W.D."] "http://a";
    authored "J/A+A/329/101" ["Raboud D."; "Eichhorn H."] "http://b";
    authored "I/90a" ["Eichhorn H."] "http://a" ].

Definition image (name band fmt : string) : SIARecord :=
  {| title := lit name; bandpass_id := lit band; format := lit fmt |}.

Definition three_images : list SIARecord :=
  [ image "W3 Coadd 2092p393_ac51" "W3" "image/fits";
    image "W1 Coadd 2092p393_ac51" "W1" "image/fits";
    image "W2 Coadd 2092p393_ac51" "W2" "image/fits" ].

(* ===================================================================== *)
(** * Strings *)
(* ===================================================================== *)

Lemma startswith_prefix (name short : str) :
  startswith name short = true ↔ short `prefix_of` name.
Proof.
  revert name. induction short as [|c short IH]; intros name; simpl.
  - split; [intros _; apply prefix_nil | done].
  - destruct name as [|d name].
    + split; [done | intros H; by apply prefix_nil_not in H].
    + rewrite andb_true_iff, bool_decide_eq_true, IH. split.
      * intros [-> H]. by apply prefix_cons.
      * intros H. split.
        -- by eapply prefix_cons_inv_1.
        -- by eapply prefix_cons_inv_2.
Qed.

Lemma contains_occurs (text each : str) :
  contains text each = true ↔ occurs_in each text.
Proof.
  unfold occurs_in. induction text as [|d text IH].
  - simpl. rewrite orb_false_r, startswith_prefix. split.
    + intros ->%prefix_nil_inv. by exists [], [].
    + intros (before & after & H). symmetry in H.
      apply app_eq_nil in H as [-> [-> _]%app_eq_nil]. done.
  - cbn [contains]. rewrite orb_true_iff, startswith_prefix, IH. split.
    + intros [[after ->] | (before & after & ->)].
      * by exists [], after.
      * by exists (d :: before), after.
    + intros ([|b before] & after & H).
      * left. exists after. done.
      * right. injection H as -> ->. by exists before, after.
Qed.

Lemma contains_empty_text (each : str) :
  each ≠ [] → contains [] each = false.
Proof. by destruct each. Qed.

Lemma split_from_words (cur s : str) (w : str) :
  Forall (λ c, isspace c = false) cur →
  w ∈ split_from cur s → is_word w.
Proof.
  revert cur. induction s as [|c s IH]; intros cur Hcur; simpl.
  - destruct cur; [by intros ?%elem_of_nil|].
    intros ->%list_elem_of_singleton. by split.
  - destruct (isspace c) eqn:Hc.
    + destruct cur as [|c0 cur].
      * apply IH. constructor.
      * intros [->|H]%elem_of_cons; [by split|].
        revert H. apply IH. constructor.
    + apply IH. apply Forall_app. split; [done|]. by repeat constructor.
Qed.

Lemma split_words (s w : str) : w ∈ split s → is_word w.
Proof. apply split_from_words. constructor. Qed.

Lemma split_from_word (cur w rest : str) :
  Forall (λ c, isspace c = false) w →
  split_from cur (w ++ rest) = split_from (cur ++ w) rest.
Proof.
  revert cur. induction w as [|c w IH]; intros cur Hw; simpl.
  - by rewrite app_nil_r.
  - inversion Hw as [|?? Hc Hw']; subst. rewrite Hc, IH by done.
    by rewrite <- app_assoc.
Qed.

Lemma split_unwords (ws : list str) :
  Forall is_word ws → split (unwords ws) = ws.
Proof.
  unfold split. induction ws as [|w ws IH]; intros Hws; [done|].
  inversion Hws as [|?? [Hne Hw] Hws']; subst.
  destruct ws as [|w' ws].
  - simpl. rewrite <- (app_nil_r w) at 1. rewrite split_from_word by done.
    simpl. by destruct w.
  - change (unwords (w :: w' :: ws)) with (w ++ 32%N :: unwords (w' :: ws)).
    rewrite split_from_word by done.
    rewrite app_nil_l. cbn [split_from]. change (isspace 32) with true.
    cbv iota. rewrite IH by done. by destruct w.
Qed.

(* ===================================================================== *)
(** * Indexing *)
(* ===================================================================== *)

Lemma getitem_nat {A} (l : list A) (i : nat) (x : A) :
  l !! i = Some x → getitem l (Z.of_nat i) = Ret x.
Proof.
  intros H. pose proof (lookup_lt_Some _ _ _ H) as Hlt. unfold getitem.
  destruct (Z.ltb_spec (Z.of_nat i) 0) as [?|_]; [lia|].
  destruct (Z.leb_spec 0 (Z.of_nat i)) as [_|?]; [|lia].
  destruct (Z.ltb_spec (Z.of_nat i) (Z.of_nat (length l))) as [_|?]; [|lia].
  simpl. by rewrite Nat2Z.id, H.
Qed.

Lemma getitem_valid {A} (l : list A) (k : Z) :
  valid_index l k → ∃ x, getitem l k = Ret x.
Proof.
  unfold valid_index, getitem. intros Hk.
  set (pos := if k <? 0 then k + Z.of_nat (length l) else k).
  assert (0 ≤ pos < Z.of_nat (length l)) as Hpos.
  { subst pos. destruct (Z.ltb_spec k 0); lia. }
  destruct (Z.leb_spec 0 pos) as [_|?]; [|lia].
  destruct (Z.ltb_spec pos (Z.of_nat (length l))) as [_|?]; [|lia].
  simpl. destruct (lookup_lt_is_Some_2 l (Z.to_nat pos)) as [x ->]; [lia|].
  by exists x.
Qed.

Lemma getitem_Ret_valid {A} (l : list A) (k : Z) (x : A) :
  getitem l k = Ret x → valid_index l k.
Proof.
  unfold valid_index, getitem.
  destruct (Z.ltb_spec k 0);
    destruct (Z.leb_spec 0 (k + Z.of_nat (length l)));
    destruct (Z.leb_spec 0 k);
    destruct (Z.ltb_spec (k + Z.of_nat (length l)) (Z.of_nat (length l)));
    destruct (Z.ltb_spec k (Z.of_nat (length l)));
    simpl; intros; try done; lia.
Qed.

Lemma getitem_elem_of {A} (l : list A) (k : Z) (x : A) :
  getitem l k = Ret x → x ∈ l.
Proof.
  unfold getitem. case_match; [|done].
  destruct (l !! _) eqn:E; [|done]. intros [= ->].
  by eapply list_elem_of_lookup_2.
Qed.

Lemma range_lookup (n i : nat) (k : Z) :
  range n !! i = Some k ↔ k = Z.of_nat i ∧ (i < n)%nat.
Proof.
  unfold range. rewrite list_lookup_fmap, fmap_Some. split.
  - intros (j & [-> ?]%lookup_seq & ->). done.
  - intros [-> ?]. exists i. by rewrite lookup_seq.
Qed.

Lemma elem_of_range (n : nat) (k : Z) :
  k ∈ range n ↔ 0 ≤ k < Z.of_nat n.
Proof.
  rewrite list_elem_of_lookup. setoid_rewrite range_lookup. split.
  - intros (i & -> & ?). lia.
  - intros ?. exists (Z.to_nat k). lia.
Qed.

Lemma range_sorted (n : nat) : StronglySorted Z.lt (range n).
Proof.
  unfold range. generalize 0%nat. induction n as [|n IH]; intros m; simpl.
  - constructor.
  - constructor; [apply IH|].
    apply Forall_forall. intros k (j & -> & [? ?]%elem_of_seq)%list_elem_of_fmap.
    lia.
Qed.

Lemma range_rows (result : list RegistryResource) :
  Forall (λ i, ∃ row,
            getitem result i = Ret row ∧ result !! Z.to_nat i = Some row)
         (range (length result)).
Proof.
  apply Forall_forall. intros k [? ?]%elem_of_range.
  destruct (lookup_lt_is_Some_2 result (Z.to_nat k)) as [row Hrow]; [lia|].
  exists row. split; [|done].
  rewrite <- (Z2Nat.id k) by lia. by apply getitem_nat.
Qed.

(* ===================================================================== *)
(** * The loops of [getrow] *)
(* ===================================================================== *)

Lemma hits_all {A} (f : A → bool) (l : list A) :
  (length (List.filter f l) =? length l)%nat = forallb f l.
Proof.
  induction l as [|a l IH]; [done|]. simpl.
  destruct (f a); simpl; [done|].
  pose proof (List.filter_length_le f l).
  apply Nat.eqb_neq. lia.
Qed.

(** On a row with a description, the inner loop counts the keys that occur
    in it. *)
Lemma getrow_keys_described result i row text keys n :
  getitem result i = Ret row →
  res_description row = Some text →
  getrow_keys result i keys n
  = Ret (n + length (List.filter (contains text) keys))%nat.
Proof.
  intros Hrow Htext. revert n.
  induction keys as [|each keys IH]; intros n; simpl.
  - f_equal. lia.
  - rewrite Hrow. simpl. rewrite Htext. simpl. rewrite IH.
    destruct (contains text each); simpl; f_equal; lia.
Qed.

(** On a row without a description, the first key already raises. *)
Lemma getrow_keys_undescribed result i row each keys n :
  getitem result i = Ret row →
  res_description row = None →
  getrow_keys result i (each :: keys) n = Raise TypeError.
Proof. intros Hrow Hnone. simpl. rewrite Hrow. simpl. by rewrite Hnone. Qed.

Lemma getrow_rows_described result keys todo ind :
  Forall (λ i, ∃ row, getitem result i = Ret row
                      ∧ is_Some (res_description row)) todo →
  getrow_rows result keys (length keys) todo ind 0
  = Ret (ind ++ filter (λ i, row_matches result keys i = true) todo).
Proof.
  intros Htodo. revert ind.
  induction Htodo as [|i todo (row & Hrow & text & Htext) _ IH]; intros ind.
  - simpl. by rewrite app_nil_r.
  - cbn [getrow_rows].
    rewrite (getrow_keys_described _ _ _ _ _ _ Hrow Htext). cbn [bind].
    assert (row_matches result keys i = forallb (contains text) keys) as Hi.
    { unfold row_matches. by rewrite Hrow, Htext. }
    rewrite Nat.add_0_l, hits_all, IH, filter_cons, Hi.
    destruct (forallb (contains text) keys); simpl.
    + by rewrite <- app_assoc.
    + done.
Qed.

(** Without keys, no description is looked at and every row is kept. *)
Lemma getrow_rows_no_keys result todo ind :
  getrow_rows result [] 0 todo ind 0 = Ret (ind ++ todo).
Proof.
  revert ind. induction todo as [|i todo IH]; intros ind; simpl.
  - by rewrite app_nil_r.
  - rewrite IH. by rewrite <- app_assoc.
Qed.

Lemma getrow_rows_undescribed result each keys n_keys todo ind n :
  Forall (valid_index result) todo →
  Exists (λ i, ∃ row, getitem result i = Ret row
                      ∧ res_description row = None) todo →
  getrow_rows result (each :: keys) n_keys todo ind n = Raise TypeError.
Proof.
  intros Hvalid Hex. revert ind n.
  induction Hvalid as [|i todo Hi _ IH]; intros ind n.
  - by apply Exists_nil in Hex.
  - cbn [getrow_rows].
    destruct (getitem_valid _ _ Hi) as [row Hrow].
    destruct (res_description row) as [text|] eqn:Htext.
    + rewrite (getrow_keys_described _ _ _ _ _ _ Hrow Htext). cbn [bind].
      apply IH. apply Exists_cons in Hex as [(row' & Hrow' & Hnone)|Hex];
        [congruence | done].
    + by rewrite (getrow_keys_undescribed _ _ _ _ _ _ Hrow Htext).
Qed.

Lemma row_matches_occurs result keys i :
  row_matches result keys i = true ↔
  ∃ row text, getitem result i = Ret row ∧ res_description row = Some text
              ∧ ∀ each, each ∈ keys → occurs_in each text.
Proof.
  unfold row_matches. split.
  - destruct (getitem result i) as [row|]; [|done].
    destruct (res_description row) as [text|] eqn:Htext; [|done].
    intros H. exists row, text. split_and!; [done..|].
    intros each Heach. apply contains_occurs.
    rewrite forallb_forall in H. apply H. by apply list_elem_of_In.
  - intros (row & text & -> & -> & H). apply forallb_forall.
    intros each Heach. apply contains_occurs, H. by apply list_elem_of_In.
Qed.

(* ===================================================================== *)
(** * Increasing index lists *)
(* ===================================================================== *)

Lemma sorted_filter {A} (R : relation A) (P : A → Prop)
    `{∀ x, Decision (P x)} (l : list A) :
  StronglySorted R l → StronglySorted R (filter P l).
Proof.
  induction 1 as [|x l _ IH Hx]; [constructor|].
  rewrite filter_cons. destruct (decide (P x)); [|done].
  constructor; [done|].
  apply Forall_forall. intros y [_ Hy]%list_elem_of_filter.
  rewrite Forall_forall in Hx. by apply Hx.
Qed.

Lemma sorted_lt_NoDup (l : list Z) : StronglySorted Z.lt l → NoDup l.
Proof.
  induction 1 as [|x l _ IH Hx]; constructor; [|done].
  intros Hin. rewrite Forall_forall in Hx. specialize (Hx _ Hin). lia.
Qed.

Lemma sorted_pair (l : list Z) (a b : Z) :
  StronglySorted Z.lt l → a < b → (∀ i, i ∈ l ↔ i = a ∨ i = b) →
  l = [a; b].
Proof.
  intros Hl Hab Hmem.
  apply (StronglySorted_unique_strong Z.lt).
  - intros; lia.
  - done.
  - repeat constructor. lia.
  - apply NoDup_Permutation.
    + by apply sorted_lt_NoDup.
    + apply NoDup_cons. split; [|apply NoDup_singleton].
      intros ->%list_elem_of_singleton. lia.
    + intros i. rewrite Hmem, elem_of_cons, list_elem_of_singleton. done.
Qed.

(* ===================================================================== *)
(** * Properties of [getrow] *)
(* ===================================================================== *)

(** With every description present, [getrow] returns the matching rows of
    [range(len(result))]. *)
Lemma getrow_described result keywords :
  Forall (λ row, is_Some (res_description row)) result →
  getrow result (Some keywords)
  = Ret (filter (λ i, row_matches result (split keywords) i = true)
           (range (length result))).
Proof.
  intros Hdesc. unfold getrow.
  rewrite getrow_rows_described; [done|].
  eapply Forall_impl; [apply range_rows|].
  intros i (row & Hrow & Hlook). exists row. split; [done|].
  rewrite Forall_forall in Hdesc. apply Hdesc.
  by eapply list_elem_of_lookup_2.
Qed.

(** With a key to test and a row that has no description, [getrow] raises. *)
Lemma getrow_undescribed result keywords :
  split keywords ≠ [] →
  Exists (λ row, res_description row = None) result →
  getrow result (Some keywords) = Raise TypeError.
Proof.
  intros Hkeys Hex. unfold getrow.
  destruct (split keywords) as [|each keys]; [done|].
  apply getrow_rows_undescribed.
  - apply Forall_forall. intros i Hi%elem_of_range. unfold valid_index. lia.
  - apply Exists_exists in Hex as (row & [n Hn]%list_elem_of_lookup & Hnone).
    apply Exists_exists. exists (Z.of_nat n). split.
    + apply elem_of_range. apply lookup_lt_Some in Hn. lia.
    + exists row. split; [by apply getitem_nat | done].
Qed.

(** With a key to test, a call that returns has found a description on
    every row. *)
Lemma getrow_returns_described result keywords ind :
  split keywords ≠ [] →
  getrow result (Some keywords) = Ret ind →
  Forall (λ row, is_Some (res_description row)) result.
Proof.
  intros Hkeys Hget.
  destruct (decide (Exists (λ row, res_description row = None) result))
    as [Hex|Hall].
  { rewrite getrow_undescribed in Hget by done. discriminate. }
  apply not_Exists_Forall in Hall; [|solve_decision].
  eapply Forall_impl; [exact Hall|]. intros r Hr. simpl in Hr.
  by destruct (res_description r); [eexists|].
Qed.

(** C1, the statement as written fails on a collection that holds a record
    without description: of the five records below exactly those at 1 and 3
    have both keywords in their description, yet the call does not return
    [[1; 3]]; it raises [TypeError] at the last record, which has no
    description. *)
Lemma getrow_five_last_undescribed_counterexample :
  length five_last_undescribed = 5%nat
  ∧ filter (λ i, row_matches five_last_undescribed
                   [lit "magnitude"; lit "color"] i = true)
      (range (length five_last_undescribed))
    = [1; 3]
  ∧ getrow five_last_undescribed (Some (lit "magnitude color"))
    = Raise TypeError
  ∧ getrow five_last_undescribed (Some (lit "magnitude color"))
    ≠ Ret [1; 3].
Proof.
  split_and!; [reflexivity | vm_compute; reflexivity | vm_compute; reflexivity
              | vm_compute; discriminate].
Qed.

(** C1, amended: for every collection in which every record carries a
    description and every non-empty keyword set [K], given to [getrow] as a
    string [keywords] that [split()] cuts into [K], the call returns a list,
    and the list it returns holds exactly the indices [i] of the records in
    whose description every keyword of [K] occurs as a literal,
    case-sensitive substring; the indices come in increasing order, without
    duplicates.  In particular, when exactly two records [a < b] have all
    the keywords in their description, the result is [[a; b]].  On any
    collection, a list the call returns is of this kind.  (Every list of
    non-empty keywords without white space is cut from such a string,
    [split_unwords].) *)
Theorem getrow_exactly_the_matching_rows
    (result : list RegistryResource) (keywords : str) (K : list str) :
  split keywords = K →
  K ≠ [] →
  (Forall (λ row, is_Some (res_description row)) result →
   ∃ ind, getrow result (Some keywords) = Ret ind)
  ∧ ∀ ind : list Z,
      getrow result (Some keywords) = Ret ind →
      ind = filter (λ i, row_matches result K i = true)
              (range (length result))
      ∧ (∀ i, i ∈ ind ↔
           ∃ row text, 0 ≤ i ∧ result !! Z.to_nat i = Some row
                       ∧ res_description row = Some text
                       ∧ ∀ each, each ∈ K → occurs_in each text)
      ∧ StronglySorted Z.lt ind
      ∧ NoDup ind
      ∧ (∀ a b, a < b →
           (∀ i, (∃ row text, 0 ≤ i ∧ result !! Z.to_nat i = Some row
                              ∧ res_description row = Some text
                              ∧ ∀ each, each ∈ K → occurs_in each text)
                 ↔ i = a ∨ i = b) →
           ind = [a; b]).
Proof.
  intros <- Hkeys. split.
  { intros Hdesc. eexists. by apply getrow_described. }
  intros ind0 Hget.
  pose proof (getrow_returns_described _ _ _ Hkeys Hget) as Hdesc.
  rewrite getrow_described in Hget by done. injection Hget as <-.
  set (ind := filter _ _).
  assert (StronglySorted Z.lt ind) as Hsorted.
  { apply sorted_filter, range_sorted. }
  assert (∀ i, i ∈ ind ↔
            ∃ row text, 0 ≤ i ∧ result !! Z.to_nat i = Some row
                        ∧ res_description row = Some text
                        ∧ ∀ each, each ∈ split keywords → occurs_in each text)
    as Hmem.
  { intros i. subst ind.
    rewrite list_elem_of_filter, row_matches_occurs, elem_of_range. split.
    - intros [(row & text & Hrow & Htext & Hall) [Hi Hlt]].
      exists row, text. split_and!; [done| |done..].
      destruct (lookup_lt_is_Some_2 result (Z.to_nat i)) as [row' Hrow'];
        [lia|].
      pose proof (getitem_nat _ _ _ Hrow') as Hget.
      rewrite Z2Nat.id in Hget by done. congruence.
    - intros (row & text & Hi & Hrow & Htext & Hall).
      pose proof (lookup_lt_Some _ _ _ Hrow). split; [|lia].
      exists row, text. split_and!; [|done..].
      rewrite <- (Z2Nat.id i) by done. by apply getitem_nat. }
  split_and!; [done|done|done|by apply sorted_lt_NoDup|].
  intros a b Hab Hexact. apply sorted_pair; [done..|].
  intros i. by rewrite Hmem.
Qed.

(** The scenario of C1 on the sample collection: of the five records, those
    at 1 and 3 mention both [magnitude] and [color]. *)
Lemma getrow_exactly_the_matching_rows_witness :
  split (lit "magnitude color") = [lit "magnitude"; lit "color"]
  ∧ [lit "magnitude"; lit "color"] ≠ []
  ∧ Forall (λ row, is_Some (res_description row)) five
  ∧ getrow five (Some (lit "magnitude color")) = Ret [1; 3].
Proof.
  assert (split (lit "magnitude color") = [lit "magnitude"; lit "color"])
    as H1 by reflexivity.
  assert ([lit "magnitude"; lit "color"] ≠ []) as H2 by discriminate.
  assert (Forall (λ row, is_Some (res_description row)) five) as H3.
  { repeat constructor; by eexists. }
  split_and!; [done..|].
  destruct (getrow_exactly_the_matching_rows five (lit "magnitude color")
              [lit "magnitude"; lit "color"] H1 H2) as [Hreturns Hexact].
  destruct (Hreturns H3) as [ind Hind]. rewrite Hind.
  destruct (Hexact ind Hind) as (-> & _).
  vm_compute. reflexivity.
Defined.

(** C9: when the keyword string splits into no keyword at all (the empty
    string, or blanks only), [getrow] raises nothing and returns the index of
    every record, 0 to [len(result) - 1] in order. *)
Theorem getrow_no_keyword_keeps_every_row
    (result : list RegistryResource) (keywords : str) :
  split keywords = [] →
  getrow result (Some keywords) = Ret (range (length result)).
Proof.
  intros Hkeys. unfold getrow. rewrite Hkeys. simpl.
  by rewrite getrow_rows_no_keys.
Qed.

Lemma getrow_no_keyword_keeps_every_row_witness :
  split (lit "") = []
  ∧ getrow five (Some (lit "")) = Ret [0; 1; 2; 3; 4].
Proof.
  split; [reflexivity|].
  exact (getrow_no_keyword_keeps_every_row five (lit "") eq_refl).
Defined.

(** A row whose description is empty matches no keyword that [split]
    produced. *)
Lemma row_matches_empty_description result keywords i row :
  split keywords ≠ [] →
  getitem result i = Ret row →
  res_description row = Some [] →
  row_matches result (split keywords) i = false.
Proof.
  intros Hkeys Hrow Htext. unfold row_matches. rewrite Hrow, Htext.
  destruct (split keywords) as [|each keys] eqn:E; [done|].
  assert (is_word each) as [Hne _].
  { apply (split_words keywords). rewrite E. by left. }
  cbn [forallb]. by rewrite contains_empty_text.
Qed.

(** C7, the statement as written fails on a record that has no description:
    the one-record collection below matches nothing, yet the call does not
    return the empty list, it raises. *)
Lemma getrow_missing_description_counterexample :
  getrow [undescribed "V/19" "" ""] (Some (lit "color")) = Raise TypeError
  ∧ getrow [undescribed "V/19" "" ""] (Some (lit "color")) ≠ Ret [].
Proof. split; [reflexivity | discriminate]. Qed.

(** C7, amended: for a non-empty keyword set, [getrow] returns the empty
    list, and raises nothing, on the empty collection and on every
    collection of records with a description (possibly an empty one) of which
    none matches; a record whose description is empty, or missing, is never
    among the indices returned; and a collection that holds a record without
    description makes the call raise [TypeError]. *)
Theorem getrow_empty_result_and_empty_description
    (result : list RegistryResource) (keywords : str) :
  split keywords ≠ [] →
  getrow [] (Some keywords) = Ret []
  ∧ (Forall (λ row, is_Some (res_description row)) result →
     (∀ row text, row ∈ result → res_description row = Some text →
        ¬ ∀ each, each ∈ split keywords → occurs_in each text) →
     getrow result (Some keywords) = Ret [])
  ∧ (∀ ind i row,
       getrow result (Some keywords) = Ret ind →
       result !! i = Some row →
       res_description row = Some [] ∨ res_description row = None →
       Z.of_nat i ∉ ind)
  ∧ (Exists (λ row, res_description row = None) result →
     getrow result (Some keywords) = Raise TypeError).
Proof.
  intros Hkeys. split_and!.
  - by rewrite getrow_described.
  - intros Hdesc Hnone. rewrite getrow_described by done. f_equal.
    apply elem_of_nil_inv. intros i [Hi _]%list_elem_of_filter.
    apply row_matches_occurs in Hi as (row & text & Hrow & Htext & Hall).
    eapply Hnone; [by eapply getitem_elem_of|done..].
  - intros ind i row Hget Hrow Hdescr.
    pose proof (getrow_returns_described _ _ _ Hkeys Hget) as Hdesc.
    rewrite getrow_described in Hget by done. injection Hget as <-.
    intros [Hi _]%list_elem_of_filter.
    destruct Hdescr as [Hempty|Hmissing].
    + rewrite (row_matches_empty_description _ _ _ row) in Hi;
        [done..|by apply getitem_nat|done].
    + rewrite Forall_forall in Hdesc.
      destruct (Hdesc row) as [text Htext]; [|congruence].
      by eapply list_elem_of_lookup_2.
  - by apply getrow_undescribed.
Qed.

Lemma getrow_empty_result_and_empty_description_witness :
  split (lit "magnitude color") ≠ []
  ∧ getrow [] (Some (lit "magnitude color")) = Ret []
  ∧ (∀ ind, getrow five (Some (lit "magnitude color")) = Ret ind →
            4 ∉ ind).
Proof.
  assert (split (lit "magnitude color") ≠ []) as H by discriminate.
  destruct (getrow_empty_result_and_empty_description
              five (lit "magnitude color") H) as (H1 & _ & H3 & _).
  split_and!; [done..|].
  intros ind Hind.
  apply (H3 ind 4%nat (resource "V/19" "" "" "") Hind); [reflexivity|].
  by left.
Defined.

(* ===================================================================== *)
(** * The loop of [getunique] *)
(* ===================================================================== *)

Lemma shortName_at_valid result k :
  valid_index result k → shortName_at result k = Ret (name_of result k).
Proof.
  intros [row Hrow]%getitem_valid. unfold shortName_at, name_of.
  by rewrite Hrow.
Qed.

(** The loop over the positions of [ind] does what a walk over [ind] itself
    does; [done_] is the part of [ind] already behind the loop. *)
Lemma getunique_loop_keep_new result done_ ind seen unique_ind :
  Forall (valid_index result) ind →
  getunique_loop result (done_ ++ ind)
    (map Z.of_nat (seq (length done_) (length ind))) seen unique_ind
  = Ret (unique_ind ++ keep_new result seen ind).
Proof.
  intros Hvalid. revert done_ seen unique_ind.
  induction Hvalid as [|k ind Hk _ IH]; intros done_ seen unique_ind.
  - simpl. by rewrite app_nil_r.
  - cbn [length seq map getunique_loop keep_new].
    rewrite (getitem_nat _ _ k) by (by apply list_lookup_middle).
    cbn [bind]. destruct (getitem_valid _ _ Hk) as [row Hrow].
    rewrite Hrow. cbn [bind]. unfold attr_short_name, name_of. rewrite Hrow.
    specialize (IH (done_ ++ [k])).
    rewrite length_app, Nat.add_1_r, <- app_assoc in IH. simpl in IH.
    destruct (decide (short_name row ∈ seen)) as [Hin|Hnin].
    + rewrite bool_decide_eq_false_2 by (by intros ?).
      rewrite bool_decide_eq_true_2 by done. apply IH.
    + rewrite bool_decide_eq_true_2 by done.
      rewrite bool_decide_eq_false_2 by done.
      rewrite IH. by rewrite <- app_assoc.
Qed.

Lemma getunique_keep_new result ind :
  Forall (valid_index result) ind →
  getunique result ind = Ret (keep_new result [] ind).
Proof.
  intros Hvalid. unfold getunique, range.
  apply (getunique_loop_keep_new result [] ind [] [] Hvalid).
Qed.

Lemma keep_new_sublist result seen ind :
  keep_new result seen ind `sublist_of` ind.
Proof.
  revert seen. induction ind as [|k ind IH]; intros seen; simpl.
  - constructor.
  - case_bool_decide.
    + by apply sublist_cons.
    + by apply sublist_skip.
Qed.

(** The names of the indices kept are new with respect to [seen], and
    differ from one another. *)
Lemma keep_new_names result seen ind :
  NoDup (map (name_of result) (keep_new result seen ind))
  ∧ ∀ k, k ∈ keep_new result seen ind → name_of result k ∉ seen.
Proof.
  revert seen. induction ind as [|k ind IH]; intros seen; simpl.
  - split; [constructor | by intros ? ?%elem_of_nil].
  - case_bool_decide as Hk; [apply IH|].
    destruct (IH (seen ++ [name_of result k])) as [Hnd Hnew].
    split.
    + cbn [map]. apply NoDup_cons. split; [|done].
      intros (k' & Heq & Hk')%list_elem_of_fmap.
      apply (Hnew _ Hk'). rewrite <- Heq. apply elem_of_app. right. by left.
    + intros k' [->|Hk']%elem_of_cons; [done|].
      intros Hin. apply (Hnew _ Hk'). apply elem_of_app. by left.
Qed.

(** Every name met on the walk is in [seen] or is the name of a kept
    index. *)
Lemma keep_new_covers result seen ind k :
  k ∈ ind →
  name_of result k ∈ seen
  ∨ ∃ k0, k0 ∈ keep_new result seen ind ∧ name_of result k0 = name_of result k.
Proof.
  revert seen. induction ind as [|k1 ind IH]; intros seen Hk.
  - by apply elem_of_nil in Hk.
  - simpl. apply elem_of_cons in Hk as [->|Hk].
    + case_bool_decide; [by left|]. right. exists k1. split; [by left|done].
    + case_bool_decide as Hk1; [by apply IH|].
      destruct (IH (seen ++ [name_of result k1]) Hk)
        as [[Hin|Hin%list_elem_of_singleton]%elem_of_app | (k0 & Hk0 & Heq)].
      * by left.
      * right. exists k1. split; [by left|done].
      * right. exists k0. split; [by right|done].
Qed.

(** Walking the kept indices again keeps them all. *)
Lemma keep_new_idemp result seen ind :
  keep_new result seen (keep_new result seen ind) = keep_new result seen ind.
Proof.
  revert seen. induction ind as [|k ind IH]; intros seen; simpl; [done|].
  case_bool_decide as Hk; [apply IH|].
  simpl. rewrite bool_decide_eq_false_2 by done. by rewrite IH.
Qed.

(** [keep_new] agrees with the wording of the specification, as long as
    [seen] holds the names of the indices walked before. *)
Lemma keep_new_keep_first_from result seen earlier ind :
  Forall (valid_index result) earlier →
  Forall (valid_index result) ind →
  (∀ n, n ∈ seen ↔ ∃ k', k' ∈ earlier ∧ name_of result k' = n) →
  keep_new result seen ind = keep_first_from result earlier ind.
Proof.
  intros Hearlier Hind. revert seen earlier Hearlier.
  induction Hind as [|k ind Hk _ IH]; intros seen earlier Hearlier Hseen;
    [done|].
  cbn [keep_new keep_first_from].
  assert (existsb
            (λ k', bool_decide (shortName_at result k' = shortName_at result k))
            earlier
          = bool_decide (name_of result k ∈ seen)) as ->.
  { apply eq_true_iff_eq.
    rewrite existsb_exists, bool_decide_eq_true, Hseen. split.
    - intros (k' & Hk'%list_elem_of_In & Heq%bool_decide_eq_true).
      exists k'. split; [done|].
      rewrite Forall_forall in Hearlier.
      rewrite !shortName_at_valid in Heq by auto. congruence.
    - intros (k' & Hk' & Heq). exists k'. split; [by apply list_elem_of_In|].
      apply bool_decide_eq_true.
      rewrite Forall_forall in Hearlier.
      rewrite !shortName_at_valid by auto. congruence. }
  assert (Forall (valid_index result) (earlier ++ [k])) as Hearlier'.
  { apply Forall_app. split; [done|]. constructor; [done|constructor]. }
  case_bool_decide as Hin.
  - simpl. apply IH; [done|]. intros n. rewrite Hseen. split.
    + intros (k' & Hk' & Heq). exists k'. split; [|done].
      apply elem_of_app. by left.
    + intros (k' & [Hk' | ->%list_elem_of_singleton]%elem_of_app & Heq).
      * by exists k'.
      * apply Hseen. by rewrite <- Heq.
  - simpl. f_equal. apply IH; [done|]. intros n.
    rewrite elem_of_app, list_elem_of_singleton, Hseen. split.
    + intros [(k' & Hk' & Heq) | ->].
      * exists k'. split; [|done]. apply elem_of_app. by left.
      * exists k. split; [|done]. apply elem_of_app. right. by left.
    + intros (k' & [Hk' | ->%list_elem_of_singleton]%elem_of_app & Heq).
      * left. by exists k'.
      * by right.
Qed.

(** A kept index is the first of the walk with its name. *)
Lemma keep_new_first result seen ind k :
  k ∈ keep_new result seen ind →
  (name_of result k ∉ seen)
  ∧ (∃ before after,
       ind = before ++ k :: after
       ∧ ∀ k', k' ∈ before → name_of result k' ≠ name_of result k).
Proof.
  revert seen. induction ind as [|k1 ind IH]; intros seen; simpl.
  - by intros ?%elem_of_nil.
  - case_bool_decide as Hk1.
    + intros (Hnew & before & after & -> & Hbefore)%IH.
      split; [done|]. exists (k1 :: before), after. split; [done|].
      intros k' [->|Hk']%elem_of_cons; [congruence | by apply Hbefore].
    + intros [->|Hk]%elem_of_cons.
      * split; [done|]. exists [], ind. split; [done|].
        by intros ? ?%elem_of_nil.
      * apply IH in Hk as (Hnew & before & after & -> & Hbefore).
        rewrite elem_of_app, list_elem_of_singleton in Hnew.
        split; [tauto|]. exists (k1 :: before), after. split; [done|].
        intros k' [->|Hk']%elem_of_cons; [|by apply Hbefore].
        intros Heq. apply Hnew. by right.
Qed.

Lemma sublist_valid {A} (result : list A) (l1 l2 : list Z) :
  l1 `sublist_of` l2 →
  Forall (valid_index result) l2 → Forall (valid_index result) l1.
Proof.
  intros Hsub Hvalid. rewrite Forall_forall in Hvalid |- *.
  intros k Hk. apply Hvalid. by eapply elem_of_sublist.
Qed.

(* ===================================================================== *)
(** * Properties of [getunique] *)
(* ===================================================================== *)

(** C3: for every collection and every sequence [ind] of its indices,
    [getunique] walks [ind] in order and keeps an index exactly when no
    earlier index of [ind] has a record with the same short name: each kept
    index is the first one with its short name, every short name met keeps
    one index, and no two kept indices share a short name.  The output keeps
    the order of [ind] and is not longer than [ind]. *)
Theorem getunique_keeps_first_of_each_name
    (result : list RegistryResource) (ind : list Z) :
  Forall (valid_index result) ind →
  ∃ unique_ind : list Z,
    getunique result ind = Ret unique_ind
    ∧ unique_ind = keep_first result ind
    ∧ (∀ k, k ∈ unique_ind →
         ∃ before after,
           ind = before ++ k :: after
           ∧ ∀ k', k' ∈ before →
               shortName_at result k' ≠ shortName_at result k)
    ∧ (∀ k, k ∈ ind →
         ∃ k0, k0 ∈ unique_ind
               ∧ shortName_at result k0 = shortName_at result k)
    ∧ (∀ k k', k ∈ unique_ind → k' ∈ unique_ind →
         shortName_at result k = shortName_at result k' → k = k')
    ∧ unique_ind `sublist_of` ind
    ∧ (length unique_ind ≤ length ind)%nat.
Proof.
  intros Hvalid. exists (keep_new result [] ind).
  pose proof (keep_new_sublist result [] ind) as Hsub.
  pose proof (sublist_valid _ _ _ Hsub Hvalid) as Hvalid'.
  pose proof Hvalid as Hall.
  rewrite Forall_forall in Hvalid, Hvalid'.
  split_and!.
  - by apply getunique_keep_new.
  - apply keep_new_keep_first_from; [constructor|done|].
    intros n. split; [by intros ?%elem_of_nil|].
    by intros (? & ?%elem_of_nil & _).
  - intros k (_ & before & after & -> & Hbefore)%keep_new_first.
    exists before, after. split; [done|]. intros k' Hk'.
    rewrite !shortName_at_valid.
    + intros [= Heq]. by apply (Hbefore k').
    + apply Hvalid. apply elem_of_app. right. by left.
    + apply Hvalid. apply elem_of_app. by left.
  - intros k Hk.
    destruct (keep_new_covers result [] ind k Hk)
      as [?%elem_of_nil | (k0 & Hk0 & Heq)]; [done|].
    exists k0. split; [done|].
    rewrite !shortName_at_valid by auto. by rewrite Heq.
  - intros k k' Hk Hk' Heq.
    rewrite !shortName_at_valid in Heq by auto. injection Heq as Heq.
    destruct (keep_new_names result [] ind) as [Hnd _].
    apply list_elem_of_lookup in Hk as [j Hj].
    apply list_elem_of_lookup in Hk' as [j' Hj'].
    assert (j = j') as ->; [|congruence].
    eapply NoDup_lookup; [exact Hnd| |].
    + by rewrite list_lookup_fmap, Hj.
    + by rewrite list_lookup_fmap, Hj', Heq.
  - done.
  - by apply sublist_length.
Qed.

(** The scenario of C3 on the sample collection: the records at 1, 4 and 7
    share a short name; 1 stays, 4 and 7 go. *)
Lemma getunique_keeps_first_of_each_name_witness :
  Forall (valid_index eight) [0; 1; 2; 3; 4; 5; 6; 7]
  ∧ getunique eight [0; 1; 2; 3; 4; 5; 6; 7] = Ret [0; 1; 2; 3; 5; 6].
Proof.
  assert (Forall (valid_index eight) [0; 1; 2; 3; 4; 5; 6; 7]) as H.
  { repeat (constructor; [unfold valid_index; simpl; lia|]). constructor. }
  split; [done|].
  destruct (getunique_keeps_first_of_each_name eight _ H)
    as (unique_ind & -> & -> & _).
  vm_compute. reflexivity.
Defined.

(** C6: [getunique] is idempotent: applied to its own output, it returns that
    output again. *)
Theorem getunique_idempotent (result : list RegistryResource) (ind : list Z) :
  Forall (valid_index result) ind →
  ∃ unique_ind : list Z,
    getunique result ind = Ret unique_ind
    ∧ getunique result unique_ind = Ret unique_ind.
Proof.
  intros Hvalid. exists (keep_new result [] ind).
  split; [by apply getunique_keep_new|].
  rewrite getunique_keep_new.
  - by rewrite keep_new_idemp.
  - eapply sublist_valid; [apply keep_new_sublist | done].
Qed.

Lemma getunique_idempotent_witness :
  Forall (valid_index eight) [7; 1; 0; 4; 5; 0]
  ∧ getunique eight [7; 1; 0; 4; 5; 0] = Ret [7; 0; 5]
  ∧ getunique eight [7; 0; 5] = Ret [7; 0; 5].
Proof.
  assert (Forall (valid_index eight) [7; 1; 0; 4; 5; 0]) as H.
  { repeat (constructor; [unfold valid_index; simpl; lia|]). constructor. }
  split; [done|].
  destruct (getunique_idempotent eight _ H) as (unique_ind & H1 & H2).
  assert (unique_ind = [7; 0; 5]) as ->.
  { assert (Ret unique_ind = Ret [7; 0; 5]) as [= ->]; [|done].
    rewrite <- H1. vm_compute. reflexivity. }
  done.
Defined.

(** C10: the output of [getunique] is a subsequence of the index list it is
    given, and the short names of the records it points at differ pairwise;
    in particular an index that occurs several times in the input occurs at
    most once in the output. *)
Theorem getunique_subsequence_with_distinct_names
    (result : list RegistryResource) (ind : list Z) :
  Forall (valid_index result) ind →
  ∃ unique_ind : list Z,
    getunique result ind = Ret unique_ind
    ∧ unique_ind `sublist_of` ind
    ∧ NoDup (map (shortName_at result) unique_ind)
    ∧ NoDup unique_ind.
Proof.
  intros Hvalid. exists (keep_new result [] ind).
  pose proof (keep_new_sublist result [] ind) as Hsub.
  pose proof (sublist_valid _ _ _ Hsub Hvalid) as Hvalid'.
  destruct (keep_new_names result [] ind) as [Hnd _].
  assert (NoDup (map (shortName_at result) (keep_new result [] ind))) as Hnd'.
  { assert (map (shortName_at result) (keep_new result [] ind)
            = map Ret (map (name_of result) (keep_new result [] ind))) as ->.
    { rewrite map_map. apply map_ext_Forall.
      eapply Forall_impl; [exact Hvalid'|].
      intros k Hk. by apply shortName_at_valid. }
    assert (Inj (=) (=) (@Ret str)) by (by intros ?? [= ->]).
    by apply (NoDup_fmap_2 Ret). }
  split_and!; [by apply getunique_keep_new|done|done|].
  by apply (NoDup_fmap_1 (shortName_at result)).
Qed.

Lemma getunique_subsequence_with_distinct_names_witness :
  Forall (valid_index eight) [4; 1; 4; 7; -1; 0; 0]
  ∧ getunique eight [4; 1; 4; 7; -1; 0; 0] = Ret [4; 0].
Proof.
  assert (Forall (valid_index eight) [4; 1; 4; 7; -1; 0; 0]) as H.
  { repeat (constructor; [unfold valid_index; simpl; lia|]). constructor. }
  split; [done|].
  destruct (getunique_subsequence_with_distinct_names eight _ H)
    as (unique_ind & H1 & _).
  transitivity (Ret unique_ind); [exact H1|].
  rewrite <- H1. vm_compute. reflexivity.
Defined.

(* ===================================================================== *)
(** * The table-name cells *)
(* ===================================================================== *)

Lemma session_eta (ses : session) :
  ses = {| idx := idx ses; myidx := myidx ses; tablename := tablename ses;
           stdout := stdout ses |}.
Proof. by destruct ses. Qed.

(** The [startswith] loop prints the names that start with [short], in key
    order, and leaves the last of them in [tablename]. *)
Lemma startswith_cell_run (names : list str) (short : str) (ses : session) :
  startswith_cell names short ses
  = {| idx := idx ses;
       myidx := myidx ses;
       tablename :=
         match last (filter (λ name, startswith name short = true) names) with
         | Some t => Some t
         | None => tablename ses
         end;
       stdout :=
         stdout ses ++ filter (λ name, startswith name short = true) names |}.
Proof.
  revert ses. induction names as [|name names IH]; intros ses.
  - simpl. rewrite app_nil_r. apply session_eta.
  - cbn [startswith_cell]. rewrite IH, filter_cons.
    destruct (startswith name short) eqn:Hname; simpl.
    + rewrite last_cons, <- app_assoc. simpl.
      by destruct (last (filter _ names)).
    + done.
Qed.

(** The [in] loop prints the names that contain [short], and binds
    nothing. *)
Lemma in_cell_run (names : list str) (short : str) (ses : session) :
  in_cell names short ses
  = {| idx := idx ses;
       myidx := myidx ses;
       tablename := tablename ses;
       stdout :=
         stdout ses ++ filter (λ name, contains name short = true) names |}.
Proof.
  revert ses. induction names as [|name names IH]; intros ses.
  - simpl. rewrite app_nil_r. apply session_eta.
  - cbn [in_cell]. rewrite IH, filter_cons.
    destruct (contains name short) eqn:Hname; simpl.
    + by rewrite <- app_assoc.
    + done.
Qed.

Lemma filter_startswith_prefix (names : list str) (short : str) :
  filter (λ name, startswith name short = true) names
  = filter (λ name, short `prefix_of` name) names.
Proof. apply list_filter_iff. intros name. apply startswith_prefix. Qed.

(** C2, the particular case as written fails: with the table names
    [I/90/catalog] and [I/900/members] and the short name [I/90], the
    [startswith] loop matches both names, since [I/900/members] begins with
    [I/90]; it prints both and leaves the second one in [tablename]. *)
Lemma startswith_cell_I_900_counterexample :
  startswith (lit "I/900/members") (lit "I/90") = true
  ∧ stdout (startswith_cell [lit "I/90/catalog"; lit "I/900/members"]
              (lit "I/90") fresh_session)
    = [lit "I/90/catalog"; lit "I/900/members"]
  ∧ stdout (startswith_cell [lit "I/90/catalog"; lit "I/900/members"]
              (lit "I/90") fresh_session)
    ≠ [lit "I/90/catalog"]
  ∧ tablename (startswith_cell [lit "I/90/catalog"; lit "I/900/members"]
                 (lit "I/90") fresh_session)
    = Some (lit "I/900/members").
Proof.
  split_and!; [reflexivity | reflexivity | discriminate | reflexivity].
Qed.

(** The loop over the names [l1 ++ l2] is the loop over [l1] followed by
    the loop over [l2]. *)
Lemma startswith_cell_app (l1 l2 : list str) (short : str) (ses : session) :
  startswith_cell (l1 ++ l2) short ses
  = startswith_cell l2 short (startswith_cell l1 short ses).
Proof.
  revert ses. induction l1 as [|name l1 IH]; intros ses; [done|].
  cbn [app startswith_cell]. apply IH.
Qed.

(** C2, amended: the [startswith] loop matches (prints, and stores in
    [tablename]) a table name exactly when the name has the short name as a
    prefix; a name that holds the short name only further inside, such as
    [VI/90/catalog] for [I/90], is not matched, although the [in] loop of the
    cell before matches it.  Given [I/90/catalog] and [I/900/members] and the
    short name [I/90], both names match, as they do for the short name
    [I/9]: a prefix does not tell [I/9], [I/90] and [I/900] apart.

    The step of the loop at a name, after the names [before]: a name with
    the prefix is printed and stored in [tablename], and at any other name
    the session stays as it is.  After the loop, the output has gained the
    names with the prefix in key order, and [tablename] holds the last of
    them, or what it held before when there is none. *)
Theorem startswith_cell_prefix_rule
    (names : list str) (short : str) (ses : session) :
  stdout (startswith_cell names short ses)
  = stdout ses ++ filter (λ name, short `prefix_of` name) names
  ∧ (∀ name, name ∈ filter (λ name, short `prefix_of` name) names
             ↔ name ∈ names ∧ short `prefix_of` name)
  ∧ (∀ before name,
       startswith_cell (before ++ [name]) short ses
       = if decide (short `prefix_of` name)
         then set_tablename name
                (print name (startswith_cell before short ses))
         else startswith_cell before short ses)
  ∧ tablename (startswith_cell names short ses)
    = match last (filter (λ name, short `prefix_of` name) names) with
      | Some t => Some t
      | None => tablename ses
      end
  ∧ (∀ t, tablename (startswith_cell names short ses) = Some t →
          tablename ses = Some t ∨ (t ∈ names ∧ short `prefix_of` t))
  ∧ (∀ name, name ∈ names → occurs_in short name →
             name ∈ stdout (in_cell names short ses))
  ∧ stdout (startswith_cell [lit "I/90/catalog"; lit "VI/90/catalog"]
              (lit "I/90") fresh_session)
    = [lit "I/90/catalog"]
  ∧ stdout (in_cell [lit "I/90/catalog"; lit "VI/90/catalog"]
              (lit "I/90") fresh_session)
    = [lit "I/90/catalog"; lit "VI/90/catalog"]
  ∧ stdout (startswith_cell [lit "I/90/catalog"; lit "I/900/members"]
              (lit "I/90") fresh_session)
    = [lit "I/90/catalog"; lit "I/900/members"]
  ∧ stdout (startswith_cell [lit "I/90/catalog"; lit "I/900/members"]
              (lit "I/9") fresh_session)
    = [lit "I/90/catalog"; lit "I/900/members"].
Proof.
  assert (∀ before name,
            startswith_cell (before ++ [name]) short ses
            = if decide (short `prefix_of` name)
              then set_tablename name
                     (print name (startswith_cell before short ses))
              else startswith_cell before short ses) as Hstep.
  { intros before name. rewrite startswith_cell_app. cbn [startswith_cell].
    destruct (decide (short `prefix_of` name)) as [Hname|Hname].
    - apply startswith_prefix in Hname. by rewrite Hname.
    - rewrite <- startswith_prefix in Hname.
      apply not_true_is_false in Hname. by rewrite Hname. }
  rewrite (startswith_cell_run names), in_cell_run. cbn [stdout tablename].
  rewrite filter_startswith_prefix.
  split_and!; [done| |exact Hstep|done| | |reflexivity..].
  - intros name. rewrite list_elem_of_filter. tauto.
  - intros t. destruct (last _) as [t'|] eqn:Hlast; [|by left].
    intros [= ->]. right.
    apply last_Some in Hlast as [l Hl].
    assert (t ∈ filter (λ name, short `prefix_of` name) names) as Ht.
    { rewrite Hl. apply elem_of_app. right. by left. }
    apply list_elem_of_filter in Ht. tauto.
  - intros name Hname Hocc. apply elem_of_app. right.
    apply list_elem_of_filter. split; [|done]. by apply contains_occurs.
Qed.

(** When some name has the prefix, the last such name is stored and the
    query is built for it. *)
Lemma startswith_cell_last (names : list str) (short : str) (ses : session)
    (t : str) :
  last (filter (λ name, short `prefix_of` name) names) = Some t →
  tablename (startswith_cell names short ses) = Some t
  ∧ (resolve_cells names short ses).1 = Ret (select_from t).
Proof.
  intros Ht. unfold resolve_cells, query_cell.
  rewrite startswith_cell_run, filter_startswith_prefix. cbn [tablename].
  by rewrite Ht.
Qed.

(** C5, the statement as written fails when several names match: of the two
    names below both start with [I/90], so the specification asks for
    [Ambiguous] with both candidates; the cells instead go on with the last
    one, [I/90/table], as the table of the query. *)
Lemma resolve_cells_several_matches_counterexample :
  resolveTableName_spec [lit "I/90/catalog"; lit "I/90/table"] (lit "I/90")
  = Ambiguous [lit "I/90/catalog"; lit "I/90/table"]
  ∧ tablename (startswith_cell [lit "I/90/catalog"; lit "I/90/table"]
                 (lit "I/90") fresh_session)
    = Some (lit "I/90/table")
  ∧ (resolve_cells [lit "I/90/catalog"; lit "I/90/table"] (lit "I/90")
       fresh_session).1
    = Ret (select_from (lit "I/90/table")).
Proof. split_and!; vm_compute; reflexivity. Qed.

(** C5, amended: the [startswith] loop prints every table name that has the
    short name as a prefix, in key order.  When exactly one name matches, it
    is stored in [tablename] and the query is built for it.  When several
    names match, nothing fails and no ambiguity is reported: the last
    matching name is stored and the query is built for it.

    The third part below is no part of the amended claim; it records what
    the loop does when no name matches: it prints nothing and leaves the
    session as it was, and the query statement then reads whatever
    [tablename] holds. *)
Theorem startswith_cell_selects_last_match
    (names : list str) (short : str) (ses : session) :
  let candidates := filter (λ name, short `prefix_of` name) names in
  let ses' := startswith_cell names short ses in
  stdout ses' = stdout ses ++ candidates
  ∧ (∀ t, candidates = [t] →
          resolveTableName_spec names short = Resolved t
          ∧ tablename ses' = Some t
          ∧ (resolve_cells names short ses).1 = Ret (select_from t))
  ∧ (candidates = [] →
       resolveTableName_spec names short = NotFound
       ∧ ses' = ses
       ∧ (tablename ses = None →
          (resolve_cells names short ses).1 = Raise NameError))
  ∧ (∀ t, last candidates = Some t →
          tablename ses' = Some t
          ∧ (resolve_cells names short ses).1 = Ret (select_from t)).
Proof.
  intros candidates ses'.
  assert (ses' = {| idx := idx ses; myidx := myidx ses;
                    tablename := match last candidates with
                                 | Some t => Some t
                                 | None => tablename ses
                                 end;
                    stdout := stdout ses ++ candidates |}) as Hrun.
  { subst ses' candidates. rewrite <- filter_startswith_prefix.
    apply startswith_cell_run. }
  assert (∀ t, last candidates = Some t →
               tablename ses' = Some t
               ∧ (resolve_cells names short ses).1 = Ret (select_from t))
    as Hlast.
  { intros t Ht. by apply startswith_cell_last. }
  split_and!.
  - by rewrite Hrun.
  - intros t Ht. split.
    + unfold resolveTableName_spec. fold candidates. by rewrite Ht.
    + apply Hlast. by rewrite Ht.
  - intros Hnone. split_and!.
    + unfold resolveTableName_spec. fold candidates. by rewrite Hnone.
    + rewrite Hrun, Hnone. simpl. rewrite app_nil_r. symmetry.
      apply session_eta.
    + intros Hunbound. unfold resolve_cells, query_cell. fold ses'.
      rewrite Hrun, Hnone. simpl. by rewrite Hunbound.
  - done.
Qed.

Lemma startswith_cell_selects_last_match_witness :
  filter (λ name, lit "I/90" `prefix_of` name)
    [lit "VI/90/catalog"; lit "I/90/catalog"]
  = [lit "I/90/catalog"]
  ∧ tablename (startswith_cell [lit "VI/90/catalog"; lit "I/90/catalog"]
                 (lit "I/90") fresh_session)
    = Some (lit "I/90/catalog")
  ∧ (resolve_cells [lit "VI/90/catalog"; lit "I/90/catalog"] (lit "I/90")
       fresh_session).1
    = Ret (select_from (lit "I/90/catalog")).
Proof.
  assert (filter (λ name, lit "I/90" `prefix_of` name)
            [lit "VI/90/catalog"; lit "I/90/catalog"]
          = [lit "I/90/catalog"]) as H by (vm_compute; reflexivity).
  split; [exact H|].
  destruct (startswith_cell_selects_last_match
              [lit "VI/90/catalog"; lit "I/90/catalog"] (lit "I/90")
              fresh_session)
    as (_ & Hone & _).
  destruct (Hone _ H) as (_ & Htable & Hquery). by split.
Defined.

(* ===================================================================== *)
(** * The bibcode cells *)
(* ===================================================================== *)

(** A scan that meets no hit binds [idx] only. *)
Lemma bibcode_scan_miss rows bibcode i ses :
  Forall (λ s, contains (source_value s) bibcode = false) rows →
  myidx (bibcode_scan rows bibcode i ses) = myidx ses
  ∧ tablename (bibcode_scan rows bibcode i ses) = tablename ses
  ∧ stdout (bibcode_scan rows bibcode i ses) = stdout ses.
Proof.
  intros Hmiss. revert i ses.
  induction Hmiss as [|s rows Hs _ IH]; intros i ses; [done|].
  cbn [bibcode_scan]. rewrite Hs.
  destruct (IH (i + 1) (set_idx (i + 1) ses)) as (-> & -> & ->). done.
Qed.

(** A scan stops at the first row whose [source_value] contains the
    bibcode: it binds [idx] and [myidx] to the position of that row and
    prints its line. *)
Lemma bibcode_scan_hit before s after bibcode i ses :
  Forall (λ s', contains (source_value s') bibcode = false) before →
  contains (source_value s) bibcode = true →
  bibcode_scan (before ++ s :: after) bibcode i ses
  = {| idx := Some (i + 1 + Z.of_nat (length before));
       myidx := Some (i + 1 + Z.of_nat (length before));
       tablename := tablename ses;
       stdout := stdout ses ++ [bibcode_line s] |}.
Proof.
  intros Hmiss Hhit. revert i ses.
  induction Hmiss as [|s' before Hs' _ IH]; intros i ses.
  - cbn [app bibcode_scan]. rewrite Hhit. unfold print, set_myidx, set_idx.
    simpl. by rewrite Z.add_0_r.
  - cbn [app bibcode_scan]. rewrite Hs', IH. unfold set_idx.
    cbn [tablename stdout length]. f_equal; f_equal; lia.
Qed.

Lemma bibcode_cell_miss tap_services bibcode ses :
  Forall (λ s, contains (source_value s) bibcode = false) tap_services →
  (bibcode_cell tap_services bibcode ses).1
  = (k <- read (myidx ses) ;; getitem tap_services k).
Proof.
  intros Hmiss. unfold bibcode_cell. cbn [fst].
  destruct (bibcode_scan_miss tap_services bibcode (-1) (set_idx (-1) ses)
              Hmiss) as (-> & _). done.
Qed.

Lemma bibcode_cell_hit before s after bibcode ses :
  Forall (λ s', contains (source_value s') bibcode = false) before →
  contains (source_value s) bibcode = true →
  bibcode_cell (before ++ s :: after) bibcode ses
  = (Ret s,
     {| idx := Some (Z.of_nat (length before));
        myidx := Some (Z.of_nat (length before));
        tablename := tablename ses;
        stdout := stdout ses ++ [bibcode_line s] |}).
Proof.
  intros Hmiss Hhit. unfold bibcode_cell.
  rewrite (bibcode_scan_hit _ _ _ _ _ _ Hmiss Hhit). cbn [myidx read bind].
  replace (-1 + 1 + Z.of_nat (length before)) with (Z.of_nat (length before))
    by lia.
  rewrite (getitem_nat _ _ s) by (by apply list_lookup_middle). done.
Qed.

(** The first element with a decidable property splits the list. *)
Lemma first_hit {A} (P : A → Prop) `{∀ x, Decision (P x)} (l : list A) :
  Exists P l →
  ∃ before x after,
    l = before ++ x :: after ∧ Forall (λ y, ¬ P y) before ∧ P x.
Proof.
  induction l as [|a l IH]; intros Hex; [by apply Exists_nil in Hex|].
  destruct (decide (P a)) as [Ha|Ha].
  - exists [], a, l. by repeat split.
  - apply Exists_cons in Hex as [?|Hex]; [done|].
    destruct (IH Hex) as (before & x & after & -> & Hbefore & Hx).
    exists (a :: before), x, after. split_and!; [done| |done].
    by constructor.
Qed.

(** [np.where] yields positions inside the column. *)
Lemma np_where_eq_spec (column : list str) (x : str) (i k : Z) :
  k ∈ np_where_eq column x i ↔
  ∃ (n : nat) (v : str),
    k = i + Z.of_nat n ∧ column !! n = Some v
    ∧ rstrip_nul v = rstrip_nul x.
Proof.
  revert i. induction column as [|v column IH]; intros i; simpl.
  - split; [by intros ?%elem_of_nil | by intros (? & ? & _ & ? & _)].
  - case_bool_decide as Hv.
    + rewrite elem_of_cons, IH. split.
      * intros [->|(n & v' & -> & Hn & Hv')].
        -- exists 0%nat, v. split_and!; [lia|done..].
        -- exists (S n), v'. split_and!; [lia|done..].
      * intros ([|n] & v' & -> & Hn & Hv').
        -- left. lia.
        -- right. exists n, v'. split_and!; [lia|done..].
    + rewrite IH. split.
      * intros (n & v' & -> & Hn & Hv'). exists (S n), v'.
        split_and!; [lia|done..].
      * intros ([|n] & v' & -> & Hn & Hv').
        -- simpl in Hn. congruence.
        -- exists n, v'. split_and!; [lia|done..].
Qed.

Lemma np_take_valid {A} (column : list A) (positions : list Z) :
  Forall (valid_index column) positions →
  ∃ vs, np_take column positions = Ret vs.
Proof.
  induction 1 as [|k positions Hk _ [vs IH]]; [by exists []|].
  destruct (getitem_valid _ _ Hk) as [v Hv].
  exists (v :: vs). simpl. rewrite Hv. simpl. by rewrite IH.
Qed.

(** The [np.where] cell never raises: it selects the rows whose
    [source_value] is the bibcode for the comparison of the array, none when
    there is none. *)
Lemma bibcode_where_run (tap_services : list RegistryResource)
    (bibcode : str) :
  ∃ match_ url,
    bibcode_where tap_services bibcode = Ret (match_, url)
    ∧ ∀ k, k ∈ match_ ↔
        ∃ (n : nat) row, k = Z.of_nat n ∧ tap_services !! n = Some row
                         ∧ rstrip_nul (source_value row)
                           = rstrip_nul bibcode.
Proof.
  unfold bibcode_where.
  set (match_ := np_where_eq (map source_value tap_services) bibcode 0).
  assert (∀ k, k ∈ match_ ↔
            ∃ (n : nat) row, k = Z.of_nat n ∧ tap_services !! n = Some row
                             ∧ rstrip_nul (source_value row)
                               = rstrip_nul bibcode) as Hmatch.
  { intros k. subst match_. rewrite np_where_eq_spec. split.
    - intros (n & v & -> & Hn & Hv). rewrite list_lookup_fmap in Hn.
      destruct (tap_services !! n) as [row|] eqn:Hrow; [|done].
      injection Hn as <-. by exists n, row.
    - intros (n & row & -> & Hrow & Hb). exists n, (source_value row).
      split_and!; [done| |done]. by rewrite list_lookup_fmap, Hrow. }
  destruct (np_take_valid (map access_url tap_services) match_) as [url Hurl].
  { apply Forall_forall. intros k (n & row & -> & Hrow & _)%Hmatch.
    apply lookup_lt_Some in Hrow. unfold valid_index.
    rewrite length_map. lia. }
  exists match_, url. rewrite Hurl. done.
Qed.

(** C4: the loop cell, with the bibcode its first statement assigns, on the
    collections where it departs from the lookup by exact bibcode.  On a
    collection in which no record has the bibcode, the loop leaves [myidx]
    unbound and the cell stops with [NameError] in a fresh kernel, while the
    [np.where] cell selects nothing and raises nothing.  On a collection
    whose first record names the bibcode inside a longer [source_value], the
    loop takes that record, whose [source_value] is a different string,
    while the [np.where] cell, which compares with [==], selects the record
    after it, whose [source_value] is the bibcode. *)
Theorem bibcode_cell_no_record_and_longer_source_value :
  (bibcode_cell eight eichhorn_bibcode fresh_session).1 = Raise NameError
  ∧ bibcode_where eight eichhorn_bibcode = Ret ([], [])
  ∧ (∃ row,
       (bibcode_cell two_sources eichhorn_bibcode fresh_session).1 = Ret row
       ∧ two_sources !! 0%nat = Some row
       ∧ occurs_in eichhorn_bibcode (source_value row)
       ∧ source_value row ≠ eichhorn_bibcode)
  ∧ (∃ row,
       bibcode_where two_sources eichhorn_bibcode
       = Ret ([1], [access_url row])
       ∧ two_sources !! 1%nat = Some row
       ∧ source_value row = eichhorn_bibcode).
Proof.
  split_and!; try (vm_compute; reflexivity).
  - eexists. split_and!; [vm_compute; reflexivity|reflexivity| |discriminate].
    by exists (lit "1998A&A...329..101R "), [].
  - eexists. split_and!; cycle 1.
    + reflexivity.
    + reflexivity.
    + vm_compute. reflexivity.
Qed.

(* ===================================================================== *)
(** * The functions on the store *)
(* ===================================================================== *)

(** The loop of [getunique] changes the two lists it has created and
    nothing else. *)
Lemma getunique_loop_store_run result (h : gmap nat obj) l ind sn ui
    todo seen acc :
  h !! l = Some (IntList ind) → h !! sn = None → h !! ui = None → sn ≠ ui →
  ∃ seen' acc',
    getunique_loop_store result l todo sn ui
      (<[ui := IntList acc]> (<[sn := StrList seen]> h))
    = (match getunique_loop result ind todo seen acc with
       | Ret _ => Ret tt
       | Raise e => Raise e
       end,
       <[ui := IntList acc']> (<[sn := StrList seen']> h))
    ∧ ∀ out, getunique_loop result ind todo seen acc = Ret out → acc' = out.
Proof.
  intros Hl Hsn Hui Hne.
  assert (l ≠ sn) as Hlsn by congruence.
  assert (l ≠ ui) as Hlui by congruence.
  revert seen acc. induction todo as [|i todo IH]; intros seen acc.
  - exists seen, acc. split; [done|]. by intros out [= <-].
  - cbn [getunique_loop_store getunique_loop].
    unfold bind_run at 1. unfold item at 1.
    rewrite !lookup_insert_ne, Hl by done.
    destruct (getitem ind i) as [k|e] eqn:Hk; cbn [bind].
    2:{ exists seen, acc. split; [done|]. by intros out [=]. }
    unfold bind_run at 1. unfold lift at 1.
    destruct (getitem result k) as [row|e]; cbn [bind].
    2:{ exists seen, acc. split; [done|]. by intros out [=]. }
    unfold bind_run at 1. unfold strings at 1.
    rewrite lookup_insert_ne, lookup_insert_eq by done.
    unfold bind_run at 1.
    destruct (bool_decide (attr_short_name row ∉ seen)).
    + unfold bind_run at 1. unfold append_str at 1.
      rewrite lookup_insert_ne, lookup_insert_eq by done.
      rewrite (insert_insert_ne _ sn ui), insert_insert_eq by done.
      unfold bind_run at 1. unfold item at 1.
      rewrite !lookup_insert_ne, Hl, Hk by done.
      unfold append_int at 1.
      rewrite lookup_insert_eq, insert_insert_eq.
      apply IH.
    + unfold unit_run at 1. apply IH.
Qed.

Lemma fresh_lookup (h : gmap nat obj) : h !! fresh (dom h) = None.
Proof. apply not_elem_of_dom, is_fresh. Qed.

(** [getunique] on the store: the lists that were there before the call,
    [ind] among them, are as they were, and the list returned is the one
    [getunique] computes from the items of [ind]. *)
Lemma getunique_store_run result (h : gmap nat obj) l ind :
  h !! l = Some (IntList ind) →
  h ⊆ (getunique_store result l h).2
  ∧ returned (getunique_store result l h) = getunique result ind.
Proof.
  intros Hl.
  set (sn := fresh (dom h)).
  assert (h !! sn = None) as Hsn by apply fresh_lookup.
  set (ui := fresh (dom (<[sn := StrList []]> h))).
  assert (<[sn := StrList []]> h !! ui = None) as Hui' by apply fresh_lookup.
  apply lookup_insert_None in Hui' as [Hui Hne].
  assert (l ≠ sn) as Hlsn by congruence.
  assert (l ≠ ui) as Hlui by congruence.
  destruct (getunique_loop_store_run result h l ind sn ui
              (range (length ind)) [] [] Hl Hsn Hui Hne)
    as (seen' & acc' & Hloop & Hout).
  assert (getunique_store result l h
          = (match getunique result ind with
             | Ret _ => Ret ui
             | Raise e => Raise e
             end,
             <[ui := IntList acc']> (<[sn := StrList seen']> h))) as ->.
  { unfold getunique_store, bind_run, new_list, len. cbv zeta.
    fold sn. fold ui. rewrite !lookup_insert_ne, Hl, Hloop by done.
    unfold getunique. by destruct (getunique_loop _ _ _ _ _). }
  split.
  - apply insert_subseteq_r; [done|]. by apply insert_subseteq.
  - unfold getunique in *.
    destruct (getunique_loop _ _ _ _ _) as [out|e]; [|done].
    cbn [returned]. rewrite lookup_insert_eq. f_equal. by apply Hout.
Qed.

(** The outer loop of [getrow] changes the list [ind] it has created and
    nothing else. *)
Lemma getrow_rows_store_run result (h : gmap nat obj) ks kl il n_keys
    todo acc n_match :
  h !! kl = None → h !! il = None → kl ≠ il →
  ∃ acc',
    getrow_rows_store result kl n_keys todo il n_match
      (<[kl := StrList ks]> (<[il := IntList acc]> h))
    = (match getrow_rows result ks n_keys todo acc n_match with
       | Ret _ => Ret tt
       | Raise e => Raise e
       end,
       <[kl := StrList ks]> (<[il := IntList acc']> h))
    ∧ ∀ out, getrow_rows result ks n_keys todo acc n_match = Ret out →
             acc' = out.
Proof.
  intros Hkl Hil Hne. revert acc n_match.
  induction todo as [|i todo IH]; intros acc n_match.
  - exists acc. split; [done|]. by intros out [= <-].
  - cbn [getrow_rows_store getrow_rows].
    unfold bind_run at 1. unfold strings at 1. rewrite lookup_insert_eq.
    unfold bind_run at 1. unfold lift at 1.
    destruct (getrow_keys result i ks n_match) as [n|e]; cbn [bind].
    2:{ exists acc. split; [done|]. by intros out [=]. }
    unfold bind_run at 1.
    destruct (n =? n_keys)%nat.
    + unfold append_int at 1.
      rewrite lookup_insert_ne, lookup_insert_eq by done.
      rewrite (insert_insert_ne _ il kl), insert_insert_eq by done.
      apply IH.
    + unfold unit_run at 1. apply IH.
Qed.

(** [getrow] on the store: the lists that were there before the call are as
    they were, and the list returned is the one [getrow] computes. *)
Lemma getrow_store_run result keywords (h : gmap nat obj) :
  h ⊆ (getrow_store result keywords h).2
  ∧ returned (getrow_store result keywords h) = getrow result keywords.
Proof.
  set (il := fresh (dom h)).
  assert (h !! il = None) as Hil by apply fresh_lookup.
  destruct keywords as [keywords|].
  2:{ unfold getrow_store, bind_run, new_list, lift. cbn.
      split; [by apply insert_subseteq | done]. }
  set (kl := fresh (dom (<[il := IntList []]> h))).
  assert (<[il := IntList []]> h !! kl = None) as Hkl' by apply fresh_lookup.
  apply lookup_insert_None in Hkl' as [Hkl Hne].
  destruct (getrow_rows_store_run result h (split keywords) kl il
              (length (split keywords)) (range (length result)) [] 0%nat
              Hkl Hil) as (acc' & Hloop & Hout); [done|].
  assert (getrow_store result (Some keywords) h
          = (match getrow result (Some keywords) with
             | Ret _ => Ret il
             | Raise e => Raise e
             end,
             <[kl := StrList (split keywords)]> (<[il := IntList acc']> h)))
    as ->.
  { unfold getrow_store, bind_run, new_list, len, lift. cbv zeta.
    fold il. fold kl. rewrite lookup_insert_eq, Hloop.
    unfold getrow. by destruct (getrow_rows _ _ _ _ _ _). }
  split.
  - apply insert_subseteq_r; [done|]. by apply insert_subseteq.
  - unfold getrow in *.
    destruct (getrow_rows _ _ _ _ _ _) as [out|e]; [|done].
    cbn [returned]. rewrite lookup_insert_ne, lookup_insert_eq by done.
    f_equal. by apply Hout.
Qed.

(* ===================================================================== *)
(** * Purity *)
(* ===================================================================== *)

(** On a hit, the outcome of the bibcode loop cell and the value it leaves
    in [myidx] are the same in every session. *)
Lemma bibcode_cell_hit_any_session tap_services bibcode s1 s2 :
  Exists (λ s, occurs_in bibcode (source_value s)) tap_services →
  (bibcode_cell tap_services bibcode s1).1
  = (bibcode_cell tap_services bibcode s2).1
  ∧ myidx (bibcode_cell tap_services bibcode s1).2
    = myidx (bibcode_cell tap_services bibcode s2).2
  ∧ ∃ row, (bibcode_cell tap_services bibcode s1).1 = Ret row.
Proof.
  intros Hex.
  assert (Exists (λ s, contains (source_value s) bibcode = true) tap_services)
    as Hex'.
  { eapply Exists_impl; [exact Hex|]. intros s Hs. by apply contains_occurs. }
  apply first_hit in Hex' as (before & s & after & -> & Hbefore & Hs);
    [|solve_decision].
  assert (Forall (λ s', contains (source_value s') bibcode = false) before)
    as Hmiss.
  { eapply Forall_impl; [exact Hbefore|]. intros s' Hs'.
    by apply not_true_is_false. }
  rewrite !(bibcode_cell_hit _ _ _ _ _ Hmiss Hs). cbn [fst snd myidx].
  split_and!; [done..|]. by exists s.
Qed.

(** When some name has the prefix, the table the two cells settle on is the
    same in every session. *)
Lemma resolve_cells_hit_any_session names short s1 s2 :
  Exists (λ name, short `prefix_of` name) names →
  (resolve_cells names short s1).1 = (resolve_cells names short s2).1
  ∧ tablename (startswith_cell names short s1)
    = tablename (startswith_cell names short s2)
  ∧ ∃ t, (resolve_cells names short s1).1 = Ret (select_from t).
Proof.
  intros Hex.
  destruct (last (filter (λ name, short `prefix_of` name) names))
    as [t|] eqn:Hlast.
  - destruct (startswith_cell_last names short s1 t Hlast) as [-> ->].
    destruct (startswith_cell_last names short s2 t Hlast) as [-> ->].
    split_and!; [done..|]. by exists t.
  - apply last_None in Hlast.
    apply Exists_exists in Hex as (name & Hname & Hprefix).
    assert (name ∈ filter (λ name, short `prefix_of` name) names) as Hin.
    { by apply list_elem_of_filter. }
    rewrite Hlast in Hin. by apply elem_of_nil in Hin.
Qed.

(** C8, the statement as written fails for the two lookups the notebook
    does in cells: for a bibcode that no record has, the outcome of the
    bibcode cell depends on the session it runs in ([NameError] in a fresh
    kernel, the record of an earlier lookup otherwise), and a table-name
    lookup does not leave the session as it found it. *)
Lemma lookup_cells_not_pure_counterexample :
  (bibcode_cell five (lit "0000ZZZ") fresh_session).1 = Raise NameError
  ∧ (bibcode_cell five (lit "0000ZZZ") used).1
    = Ret (resource "I/259" "Positions and proper motions" "" "")
  ∧ (resolve_cells [lit "I/90/catalog"] (lit "I/90") fresh_session).2
    ≠ fresh_session
  ∧ ¬ pure_op (uncurry bibcode_cell)
  ∧ ¬ pure_op (uncurry resolve_cells).
Proof.
  split_and!.
  - vm_compute. reflexivity.
  - vm_compute. reflexivity.
  - vm_compute. discriminate.
  - intros Hpure.
    destruct (Hpure (five, lit "0000ZZZ") fresh_session used) as [H _].
    vm_compute in H. discriminate.
  - intros Hpure.
    destruct (Hpure ([lit "I/90/catalog"], lit "I/90")
                fresh_session fresh_session) as [_ H].
    vm_compute in H. discriminate.
Qed.

(** C8, amended: [getrow] and [getunique] are pure and deterministic: the
    list a call returns is determined by the values of its arguments,
    whatever else the store holds, and the call changes no list that existed
    before it, the index list given to [getunique] included.  The bibcode
    loop cell and the table-name cells print their hits and store their
    result in the globals [myidx] and [tablename]; whenever some record, or
    some table name, matches, the record or table they settle on depends only
    on the collection, or the table names, and the string looked for. *)
Theorem defs_pure_cells_deterministic_on_a_hit :
  (∀ result keywords (h : gmap nat obj),
     h ⊆ (getrow_store result keywords h).2
     ∧ returned (getrow_store result keywords h) = getrow result keywords)
  ∧ (∀ result (l : nat) ind (h : gmap nat obj),
       h !! l = Some (IntList ind) →
       h ⊆ (getunique_store result l h).2
       ∧ returned (getunique_store result l h) = getunique result ind)
  ∧ (∀ tap_services bibcode s1 s2,
       Exists (λ s, occurs_in bibcode (source_value s)) tap_services →
       (bibcode_cell tap_services bibcode s1).1
       = (bibcode_cell tap_services bibcode s2).1
       ∧ myidx (bibcode_cell tap_services bibcode s1).2
         = myidx (bibcode_cell tap_services bibcode s2).2
       ∧ ∃ row, (bibcode_cell tap_services bibcode s1).1 = Ret row)
  ∧ (∀ names short s1 s2,
       Exists (λ name, short `prefix_of` name) names →
       (resolve_cells names short s1).1 = (resolve_cells names short s2).1
       ∧ tablename (startswith_cell names short s1)
         = tablename (startswith_cell names short s2)
       ∧ ∃ t, (resolve_cells names short s1).1 = Ret (select_from t)).
Proof.
  split_and!.
  - apply getrow_store_run.
  - intros result l ind h. apply getunique_store_run.
  - apply bibcode_cell_hit_any_session.
  - apply resolve_cells_hit_any_session.
Qed.

Lemma defs_pure_cells_deterministic_on_a_hit_witness :
  ({[0%nat := IntList [1; 4; 7]]} : gmap nat obj) !! 0%nat
  = Some (IntList [1; 4; 7])
  ∧ returned (getunique_store eight 0 {[0%nat := IntList [1; 4; 7]]})
    = Ret [1]
  ∧ Exists (λ s, occurs_in (lit "1970MmRAS..73..125E") (source_value s)) five
  ∧ (bibcode_cell five (lit "1970MmRAS..73..125E") fresh_session).1
    = (bibcode_cell five (lit "1970MmRAS..73..125E") used).1
  ∧ Exists (λ name, lit "I/90" `prefix_of` name)
      [lit "VI/90/catalog"; lit "I/90/catalog"]
  ∧ (resolve_cells [lit "VI/90/catalog"; lit "I/90/catalog"] (lit "I/90")
       fresh_session).1
    = (resolve_cells [lit "VI/90/catalog"; lit "I/90/catalog"] (lit "I/90")
         used).1.
Proof.
  assert (({[0%nat := IntList [1; 4; 7]]} : gmap nat obj) !! 0%nat
          = Some (IntList [1; 4; 7])) as H0 by reflexivity.
  assert (Exists (λ s, occurs_in (lit "1970MmRAS..73..125E") (source_value s))
            five) as H1.
  { apply Exists_cons_tl, Exists_cons_hd. by exists [], []. }
  assert (Exists (λ name, lit "I/90" `prefix_of` name)
            [lit "VI/90/catalog"; lit "I/90/catalog"]) as H2.
  { apply Exists_cons_tl, Exists_cons_hd. by exists (lit "/catalog"). }
  destruct defs_pure_cells_deterministic_on_a_hit as (_ & Hu & Hb & Ht).
  destruct (Hu eight _ _ _ H0) as (_ & Hu1).
  destruct (Hb five (lit "1970MmRAS..73..125E") fresh_session used H1)
    as (Hb1 & _).
  destruct (Ht [lit "VI/90/catalog"; lit "I/90/catalog"] (lit "I/90")
              fresh_session used H2) as (Ht1 & _).
  split_and!; [done| |done..].
  rewrite Hu1. vm_compute. reflexivity.
Defined.

(* ===================================================================== *)
(** * The two calls in a row *)
(* ===================================================================== *)

Lemma filter_Forall_id {A} (P : A → Prop) `{∀ x, Decision (P x)}
    (l : list A) :
  Forall P l → filter P l = l.
Proof.
  induction 1 as [|x l Hx _ IH]; [done|].
  by rewrite filter_cons_True, IH.
Qed.

Lemma sorted_sublist {A} (R : relation A) (l1 l2 : list A) :
  l1 `sublist_of` l2 → StronglySorted R l2 → StronglySorted R l1.
Proof.
  induction 1 as [|x l1 l2 Hsub IH|x l1 l2 Hsub IH]; intros Hsorted.
  - constructor.
  - apply StronglySorted_cons in Hsorted as [Hx Hsorted].
    apply StronglySorted_cons. split; [|by apply IH].
    rewrite Forall_forall in Hx |- *. intros y Hy. apply Hx.
    by eapply elem_of_sublist.
  - apply StronglySorted_cons in Hsorted as [_ Hsorted]. by apply IH.
Qed.

(** Whatever [getrow] returns is the list of the rows that pass its test. *)
Lemma getrow_Ret_filter result keywords ind :
  getrow result (Some keywords) = Ret ind →
  ind = filter (λ i, row_passes result (split keywords) i = true)
          (range (length result)).
Proof.
  intros Hget. destruct (split keywords) as [|each keys] eqn:Hkeys.
  - unfold getrow in Hget. rewrite Hkeys in Hget. simpl in Hget.
    rewrite getrow_rows_no_keys in Hget. injection Hget as <-.
    rewrite filter_Forall_id; [done|]. by apply Forall_forall.
  - assert (split keywords ≠ []) as Hne by (by rewrite Hkeys).
    pose proof (getrow_returns_described _ _ _ Hne Hget) as Hdesc.
    rewrite getrow_described, Hkeys in Hget by done. by injection Hget as <-.
Qed.

(** [getrow] returns as soon as it has no key to test or every row has a
    description. *)
Lemma getrow_returns result keywords :
  split keywords = [] ∨ Forall (λ row, is_Some (res_description row)) result →
  ∃ ind, getrow result (Some keywords) = Ret ind.
Proof.
  intros [Hkeys|Hdesc].
  - eexists. unfold getrow. rewrite Hkeys. simpl. apply getrow_rows_no_keys.
  - eexists. by apply getrow_described.
Qed.

Lemma getrow_Ret_sublist result keywords ind :
  getrow result (Some keywords) = Ret ind →
  ind `sublist_of` range (length result).
Proof. intros ->%getrow_Ret_filter. apply sublist_filter. Qed.

Lemma getrow_Ret_valid result keywords ind :
  getrow result (Some keywords) = Ret ind →
  Forall (valid_index result) ind.
Proof.
  intros Hsub%getrow_Ret_sublist. apply Forall_forall. intros k Hk.
  assert (k ∈ range (length result)) as Hin by (by eapply elem_of_sublist).
  apply elem_of_range in Hin. unfold valid_index. lia.
Qed.

Lemma getrow_Ret_sorted result keywords ind :
  getrow result (Some keywords) = Ret ind → StronglySorted Z.lt ind.
Proof.
  intros Hsub%getrow_Ret_sublist.
  eapply sorted_sublist; [done | apply range_sorted].
Qed.

Lemma getrow_Ret_lookup result keywords ind k :
  getrow result (Some keywords) = Ret ind → k ∈ ind →
  0 ≤ k ∧ ∃ row, result !! Z.to_nat k = Some row
                 ∧ getitem result k = Ret row.
Proof.
  intros Hsub%getrow_Ret_sublist Hk.
  assert (k ∈ range (length result)) as Hin by (by eapply elem_of_sublist).
  apply elem_of_range in Hin as [? ?]. split; [done|].
  destruct (lookup_lt_is_Some_2 result (Z.to_nat k)) as [row Hrow]; [lia|].
  exists row. split; [done|].
  rewrite <- (Z2Nat.id k) by done. by apply getitem_nat.
Qed.

(** X1: the two calls compose: whenever [getrow] returns a list, [getunique]
    accepts it, so the second call never raises [IndexError].  The list it
    returns is again increasing, begins with the same index, and is empty
    only if [getrow] found nothing; hence [tap_services[uniq_ind[0]]] of the
    later cells is the first record that matched, and raises [IndexError]
    exactly when no record matched. *)
Theorem discover_composes
    (tap_services : list RegistryResource) (keywords : str) (ind : list Z) :
  getrow tap_services (Some keywords) = Ret ind →
  ∃ uniq_ind : list Z,
    discover tap_services keywords = Ret (ind, uniq_ind)
    ∧ uniq_ind `sublist_of` ind
    ∧ StronglySorted Z.lt uniq_ind
    ∧ head uniq_ind = head ind
    ∧ (uniq_ind = [] ↔ ind = [])
    ∧ (ind = [] → first_unique tap_services uniq_ind = Raise IndexError)
    ∧ (∀ k, head ind = Some k →
            ∃ row, first_unique tap_services uniq_ind = Ret row
                   ∧ tap_services !! Z.to_nat k = Some row).
Proof.
  intros Hget. pose proof (getrow_Ret_valid _ _ _ Hget) as Hvalid.
  exists (keep_new tap_services [] ind).
  assert (head (keep_new tap_services [] ind) = head ind) as Hhead.
  { destruct ind as [|k ind]; [done|]. cbn [keep_new].
    rewrite bool_decide_eq_false_2; [done|]. by intros ?%elem_of_nil. }
  split_and!.
  - unfold discover. rewrite Hget. cbn [bind].
    by rewrite getunique_keep_new.
  - apply keep_new_sublist.
  - eapply sorted_sublist; [apply keep_new_sublist|].
    by eapply getrow_Ret_sorted.
  - done.
  - split.
    + intros Hnil. rewrite Hnil in Hhead. by destruct ind.
    + by intros ->.
  - intros ->. reflexivity.
  - intros k Hk. unfold first_unique.
    destruct (keep_new tap_services [] ind) as [|k' uniq] eqn:Huniq;
      [by rewrite Hk in Hhead|].
    rewrite Hk in Hhead. injection Hhead as ->.
    assert (k ∈ ind) as Hin by (destruct ind; simplify_eq/=; by left).
    destruct (getrow_Ret_lookup _ _ _ _ Hget Hin) as (_ & row & Hrow & Hitem).
    exists row. split; [|done]. cbn. done.
Qed.

Lemma discover_composes_witness :
  getrow five (Some (lit "magnitude color")) = Ret [1; 3]
  ∧ discover five (lit "magnitude color") = Ret ([1; 3], [1; 3])
  ∧ ∃ row, first_unique five [1; 3] = Ret row ∧ short_name row = lit "I/90".
Proof.
  assert (getrow five (Some (lit "magnitude color")) = Ret [1; 3]) as H
    by (vm_compute; reflexivity).
  split; [exact H|].
  destruct (discover_composes five (lit "magnitude color") [1; 3] H)
    as (uniq_ind & Hdiscover & _).
  assert (uniq_ind = [1; 3]) as ->.
  { assert (Ret ([1; 3], uniq_ind) = Ret ([1; 3], [1; 3]))
      as [= ->]; [|done].
    rewrite <- Hdiscover. vm_compute. reflexivity. }
  split; [exact Hdiscover|].
  eexists. split; vm_compute; reflexivity.
Defined.

(** X2: of the records that match the keywords, the two calls keep, for each
    short name, the one with the least index: every index kept is a matching
    index below all matching indices with the same short name, and every
    matching index has such a representative. *)
Theorem discover_keeps_least_index_of_each_name
    (tap_services : list RegistryResource) (keywords : str)
    (ind uniq_ind : list Z) :
  discover tap_services keywords = Ret (ind, uniq_ind) →
  (∀ k, k ∈ uniq_ind →
        k ∈ ind
        ∧ ∀ k', k' ∈ ind →
                shortName_at tap_services k' = shortName_at tap_services k →
                k ≤ k')
  ∧ (∀ k', k' ∈ ind →
           ∃ k, k ∈ uniq_ind
                ∧ shortName_at tap_services k = shortName_at tap_services k'
                ∧ k ≤ k').
Proof.
  unfold discover. intros Hdiscover.
  destruct (getrow tap_services (Some keywords)) as [ind0|] eqn:Hget;
    [|done].
  cbn [bind] in Hdiscover.
  pose proof (getrow_Ret_valid _ _ _ Hget) as Hvalid.
  pose proof (getrow_Ret_sorted _ _ _ Hget) as Hsorted.
  rewrite getunique_keep_new in Hdiscover by done.
  cbn [bind] in Hdiscover. injection Hdiscover as <- <-.
  assert (∀ k, k ∈ keep_new tap_services [] ind0 →
               k ∈ ind0
               ∧ ∀ k', k' ∈ ind0 →
                       shortName_at tap_services k'
                       = shortName_at tap_services k →
                       k ≤ k') as Hleast.
  { intros k Hk.
    split; [by eapply elem_of_sublist, keep_new_sublist|].
    apply keep_new_first in Hk as (_ & before & after & Hsplit & Hbefore).
    intros k' Hk' Heq. rewrite Forall_forall in Hvalid.
    rewrite Hsplit in Hk', Hsorted.
    apply elem_of_app in Hk' as [Hk'|Hk'].
    - exfalso. apply (Hbefore k' Hk').
      rewrite !shortName_at_valid in Heq.
      + by injection Heq.
      + apply Hvalid. rewrite Hsplit. apply elem_of_app. right. by left.
      + apply Hvalid. rewrite Hsplit. apply elem_of_app. by left.
    - apply elem_of_cons in Hk' as [->|Hk']; [lia|].
      apply StronglySorted_app_1_r, StronglySorted_cons in Hsorted
        as [Hlt _].
      rewrite Forall_forall in Hlt. specialize (Hlt _ Hk'). lia. }
  split; [done|].
  intros k' Hk'. rewrite Forall_forall in Hvalid.
  destruct (keep_new_covers tap_services [] ind0 k' Hk')
    as [?%elem_of_nil | (k & Hk & Heq)]; [done|].
  assert (shortName_at tap_services k = shortName_at tap_services k')
    as Hnames.
  { rewrite !shortName_at_valid; [by rewrite Heq|by apply Hvalid|].
    apply Hvalid. by eapply elem_of_sublist, keep_new_sublist. }
  exists k. split_and!; [done..|].
  destruct (Hleast k Hk) as [_ Hle]. by apply Hle.
Qed.

Lemma discover_keeps_least_index_of_each_name_witness :
  discover eight (lit "") = Ret ([0; 1; 2; 3; 4; 5; 6; 7], [0; 1; 2; 3; 5; 6])
  ∧ ∃ k, k ∈ [0; 1; 2; 3; 5; 6]
         ∧ shortName_at eight k = shortName_at eight 7 ∧ k ≤ 7.
Proof.
  assert (discover eight (lit "")
          = Ret ([0; 1; 2; 3; 4; 5; 6; 7], [0; 1; 2; 3; 5; 6])) as H
    by (vm_compute; reflexivity).
  split; [exact H|].
  destruct (discover_keeps_least_index_of_each_name eight (lit "") _ _ H)
    as [_ Hcover].
  apply Hcover. rewrite !elem_of_cons. tauto.
Defined.

(* ===================================================================== *)
(** * The keywords and the collection of [getrow] *)
(* ===================================================================== *)

(** The three ways a call of [getrow] with a keyword string ends. *)
Lemma getrow_outcome result keywords :
  getrow result (Some keywords)
  = if decide (split keywords ≠ []
               ∧ Exists (λ row, res_description row = None) result)
    then Raise TypeError
    else Ret (filter (λ i, row_passes result (split keywords) i = true)
                (range (length result))).
Proof.
  case_decide as Hcase.
  - destruct Hcase. by apply getrow_undescribed.
  - destruct (getrow_returns result keywords) as [ind Hind].
    + destruct (decide (split keywords = [])) as [|Hne]; [by left|].
      right. apply not_and_l in Hcase as [?|Hall]; [done|].
      apply not_Exists_Forall in Hall; [|solve_decision].
      eapply Forall_impl; [exact Hall|]. intros r Hr. simpl in Hr.
      by destruct (res_description r); [eexists|].
    + rewrite Hind. f_equal. by apply getrow_Ret_filter.
Qed.

Lemma row_passes_ext result (K K' : list str) i :
  (∀ each, each ∈ K ↔ each ∈ K') →
  row_passes result K i = row_passes result K' i.
Proof.
  intros Hsame.
  assert (∀ text, forallb (contains text) K = forallb (contains text) K')
    as Hall.
  { intros text. apply eq_true_iff_eq. rewrite !forallb_forall.
    setoid_rewrite <- list_elem_of_In. by setoid_rewrite Hsame. }
  destruct K as [|each K], K' as [|each' K'].
  - done.
  - exfalso. eapply elem_of_nil, Hsame. by left.
  - exfalso. eapply elem_of_nil, Hsame. by left.
  - unfold row_passes, row_matches.
    destruct (getitem result i) as [row|]; [|done].
    destruct (res_description row); [apply Hall | done].
Qed.

Lemma row_passes_app result (K1 K2 : list str) i :
  row_passes result (K1 ++ K2) i
  = row_passes result K1 i && row_passes result K2 i.
Proof.
  assert (row_matches result (K1 ++ K2) i
          = row_matches result K1 i && row_matches result K2 i) as Hm.
  { unfold row_matches. destruct (getitem result i) as [row|]; [|done].
    destruct (res_description row); [apply forallb_app | done]. }
  destruct K1 as [|e1 K1], K2 as [|e2 K2].
  - done.
  - done.
  - rewrite app_nil_r. unfold row_passes. by rewrite andb_true_r.
  - exact Hm.
Qed.

Lemma split_from_space (cur kw1 kw2 : str) :
  split_from cur (kw1 ++ lit " " ++ kw2) = split_from cur kw1 ++ split kw2.
Proof.
  revert cur. induction kw1 as [|c kw1 IH]; intros cur.
  - change (lit " ") with [32%N]. cbn [app split_from].
    change (isspace 32) with true. cbv iota. by destruct cur.
  - cbn [app split_from]. destruct (isspace c).
    + destruct cur; by rewrite IH.
    + apply IH.
Qed.

Lemma split_space (kw1 kw2 : str) :
  split (kw1 ++ lit " " ++ kw2) = split kw1 ++ split kw2.
Proof. apply split_from_space. Qed.

(** X3: only the set of keywords counts: two keyword strings that split
    into the same words, in whatever order and however often repeated, give
    the same outcome on every collection. *)
Theorem getrow_keyword_order_irrelevant
    (result : list RegistryResource) (keywords keywords' : str) :
  (∀ each, each ∈ split keywords ↔ each ∈ split keywords') →
  getrow result (Some keywords) = getrow result (Some keywords').
Proof.
  intros Hsame. rewrite !getrow_outcome.
  assert (split keywords = [] ↔ split keywords' = []) as Hnil.
  { split; intros Hnil; apply elem_of_nil_inv; intros each Heach;
      apply Hsame in Heach; rewrite Hnil in Heach;
      by apply elem_of_nil in Heach. }
  repeat case_decide; try tauto.
  f_equal. apply list_filter_iff. intros i.
  by rewrite (row_passes_ext _ _ _ _ Hsame).
Qed.

Lemma getrow_keyword_order_irrelevant_witness :
  (∀ each, each ∈ split (lit "magnitude color")
           ↔ each ∈ split (lit " color magnitude  color"))
  ∧ getrow five (Some (lit "magnitude color"))
    = getrow five (Some (lit " color magnitude  color")).
Proof.
  assert (∀ each, each ∈ split (lit "magnitude color")
                  ↔ each ∈ split (lit " color magnitude  color")) as H.
  { intros each.
    change (split (lit "magnitude color"))
      with [lit "magnitude"; lit "color"].
    change (split (lit " color magnitude  color"))
      with [lit "color"; lit "magnitude"; lit "color"].
    rewrite !elem_of_cons, !elem_of_nil. tauto. }
  split; [exact H|].
  exact (getrow_keyword_order_irrelevant five _ _ H).
Defined.

(** X4: keywords add up as a conjunction: searching for two keyword strings
    joined by a blank returns exactly the indices that both searches return;
    so a further keyword can only remove indices, never add or reorder
    them. *)
Theorem getrow_more_keywords_intersect
    (result : list RegistryResource) (keywords1 keywords2 : str)
    (ind1 ind2 : list Z) :
  getrow result (Some keywords1) = Ret ind1 →
  getrow result (Some keywords2) = Ret ind2 →
  ∃ ind : list Z,
    getrow result (Some (keywords1 ++ lit " " ++ keywords2)) = Ret ind
    ∧ (∀ i, i ∈ ind ↔ i ∈ ind1 ∧ i ∈ ind2)
    ∧ ind `sublist_of` ind1
    ∧ ind `sublist_of` ind2.
Proof.
  intros H1 H2.
  pose proof (getrow_Ret_filter _ _ _ H1) as Hind1.
  pose proof (getrow_Ret_filter _ _ _ H2) as Hind2.
  rewrite getrow_outcome in H1, H2 |- *. rewrite split_space.
  case_decide as Hc1; [done|]. case_decide as Hc2; [done|].
  case_decide as Hc.
  { exfalso. destruct Hc as [Hne Hex].
    destruct (split keywords1), (split keywords2); naive_solver. }
  eexists. split; [done|].
  set (P1 := λ i, row_passes result (split keywords1) i = true) in *.
  set (P2 := λ i, row_passes result (split keywords2) i = true) in *.
  assert (∀ l : list Z,
            filter (λ i, row_passes result
                           (split keywords1 ++ split keywords2) i = true) l
            = filter (λ i, P1 i ∧ P2 i) l) as Hboth.
  { intros l. apply list_filter_iff. intros i. subst P1 P2. cbv beta.
    by rewrite row_passes_app, andb_true_iff. }
  rewrite Hboth. split_and!.
  - intros i. rewrite Hind1, Hind2, !list_elem_of_filter. tauto.
  - rewrite Hind1.
    rewrite (list_filter_iff _ (λ i, P2 i ∧ P1 i)) by (intros; tauto).
    rewrite <- list_filter_filter. apply sublist_filter.
  - rewrite Hind2, <- list_filter_filter. apply sublist_filter.
Qed.

Lemma getrow_more_keywords_intersect_witness :
  getrow five (Some (lit "color")) = Ret [1; 3]
  ∧ getrow five (Some (lit "of")) = Ret [1; 2]
  ∧ getrow five (Some (lit "color" ++ lit " " ++ lit "of")) = Ret [1].
Proof.
  assert (getrow five (Some (lit "color")) = Ret [1; 3]) as H1
    by (vm_compute; reflexivity).
  assert (getrow five (Some (lit "of")) = Ret [1; 2]) as H2
    by (vm_compute; reflexivity).
  split_and!; [done..|].
  destruct (getrow_more_keywords_intersect five _ _ _ _ H1 H2)
    as (ind & Hind & _).
  vm_compute. reflexivity.
Defined.

Lemma getitem_app_l {A} (l1 l2 : list A) (i : Z) :
  0 ≤ i < Z.of_nat (length l1) → getitem (l1 ++ l2) i = getitem l1 i.
Proof.
  intros Hi.
  destruct (lookup_lt_is_Some_2 l1 (Z.to_nat i)) as [x Hx]; [lia|].
  rewrite <- (Z2Nat.id i) by lia.
  rewrite (getitem_nat l1 _ x) by done.
  apply getitem_nat. by apply lookup_app_l_Some.
Qed.

Lemma getitem_app_r {A} (l1 l2 : list A) (j : Z) :
  0 ≤ j < Z.of_nat (length l2) →
  getitem (l1 ++ l2) (Z.of_nat (length l1) + j) = getitem l2 j.
Proof.
  intros Hj.
  destruct (lookup_lt_is_Some_2 l2 (Z.to_nat j)) as [x Hx]; [lia|].
  rewrite <- (Z2Nat.id j) at 2 by lia.
  rewrite (getitem_nat l2 _ x) by done.
  replace (Z.of_nat (length l1) + j)
    with (Z.of_nat (length l1 + Z.to_nat j)) by lia.
  apply getitem_nat. by rewrite lookup_app_r, Nat.add_sub' by lia.
Qed.

Lemma range_app (n m : nat) :
  range (n + m) = range n ++ map (λ j, Z.of_nat n + j) (range m).
Proof.
  unfold range. rewrite seq_app, map_app. f_equal. simpl.
  rewrite <- (Nat.add_0_l n) at 1. generalize 0%nat.
  induction m as [|m IH]; intros k; [done|].
  cbn [seq map]. f_equal; [lia|].
  rewrite <- IH. done.
Qed.

Lemma filter_map {A B} (f : A → B) (P : B → Prop) `{∀ y, Decision (P y)}
    (l : list A) :
  filter P (map f l) = map f (filter (λ x, P (f x)) l).
Proof.
  induction l as [|x l IH]; [done|]. cbn [map].
  rewrite !filter_cons. destruct (decide (P (f x))); simpl; by rewrite IH.
Qed.

Lemma filter_ext_in {A} (P Q : A → Prop) `{∀ x, Decision (P x)}
    `{∀ x, Decision (Q x)} (l : list A) :
  (∀ x, x ∈ l → (P x ↔ Q x)) → filter P l = filter Q l.
Proof.
  induction l as [|x l IH]; intros Hext; [done|].
  rewrite !filter_cons.
  assert (P x ↔ Q x) as Hx by (apply Hext; by left).
  rewrite IH by (intros y Hy; apply Hext; by right).
  destruct (decide (P x)), (decide (Q x)); tauto.
Qed.

(** X5: the indices found do not depend on what follows in the
    collection: on a collection with further records appended, [getrow]
    returns the indices it returns on the collection itself, followed by
    those it returns on the appended records, shifted by the length of the
    collection. *)
Theorem getrow_appended_records
    (result more : list RegistryResource) (keywords : str)
    (ind ind' : list Z) :
  getrow result (Some keywords) = Ret ind →
  getrow more (Some keywords) = Ret ind' →
  getrow (result ++ more) (Some keywords)
  = Ret (ind ++ map (λ i, Z.of_nat (length result) + i) ind').
Proof.
  intros H1 H2.
  pose proof (getrow_Ret_filter _ _ _ H1) as ->.
  pose proof (getrow_Ret_filter _ _ _ H2) as ->.
  rewrite getrow_outcome in H1, H2 |- *.
  case_decide as Hc1; [done|]. case_decide as Hc2; [done|].
  case_decide as Hc.
  { exfalso. destruct Hc as [Hne [Hex|Hex]%Exists_app]; tauto. }
  f_equal. rewrite length_app, range_app, filter_app. f_equal.
  - apply filter_ext_in. intros i [? ?]%elem_of_range.
    unfold row_passes, row_matches. by rewrite getitem_app_l.
  - rewrite filter_map. f_equal.
    apply filter_ext_in. intros j [? ?]%elem_of_range.
    unfold row_passes, row_matches. by rewrite getitem_app_r.
Qed.

Lemma getrow_appended_records_witness :
  getrow five (Some (lit "magnitude")) = Ret [1; 3]
  ∧ getrow (five ++ five) (Some (lit "magnitude")) = Ret [1; 3; 6; 8].
Proof.
  assert (getrow five (Some (lit "magnitude")) = Ret [1; 3]) as H
    by (vm_compute; reflexivity).
  split; [exact H|].
  exact (getrow_appended_records five five _ _ _ H H).
Defined.

(* ===================================================================== *)
(** * The index list of [getunique] *)
(* ===================================================================== *)

Lemma getitem_Raise {A} (l : list A) (k : Z) (e : exn) :
  getitem l k = Raise e → e = IndexError.
Proof.
  unfold getitem. case_match; [|by intros [= <-]].
  destruct (l !! _); [done | by intros [= <-]].
Qed.

(** One index outside the collection stops the loop of [getunique] with
    [IndexError], wherever it stands. *)
Lemma getunique_loop_invalid result done_ ind seen unique_ind :
  Exists (λ k, ¬ valid_index result k) ind →
  getunique_loop result (done_ ++ ind)
    (map Z.of_nat (seq (length done_) (length ind))) seen unique_ind
  = Raise IndexError.
Proof.
  revert done_ seen unique_ind.
  induction ind as [|k ind IH]; intros done_ seen unique_ind Hex.
  - by apply Exists_nil in Hex.
  - cbn [length seq map getunique_loop].
    rewrite (getitem_nat _ _ k) by (by apply list_lookup_middle).
    cbn [bind]. destruct (getitem result k) as [row|e] eqn:Hrow; cbn [bind].
    + apply Exists_cons in Hex as [Hk|Hex].
      { destruct Hk. by eapply getitem_Ret_valid. }
      specialize (IH (done_ ++ [k])).
      rewrite length_app, Nat.add_1_r, <- app_assoc in IH. simpl in IH.
      case_bool_decide; by apply IH.
    + by apply getitem_Raise in Hrow as ->.
Qed.

Lemma getunique_invalid result ind :
  Exists (λ k, ¬ valid_index result k) ind →
  getunique result ind = Raise IndexError.
Proof. apply (getunique_loop_invalid result [] ind [] []). Qed.

Lemma valid_index_dec {A} (l : list A) (k : Z) : Decision (valid_index l k).
Proof. unfold valid_index. apply _. Qed.

Lemma getunique_Ret_valid result ind unique_ind :
  getunique result ind = Ret unique_ind → Forall (valid_index result) ind.
Proof.
  intros Hget.
  destruct (Forall_Exists_dec (valid_index result)
              (λ k, ¬ valid_index result k)
              (λ k, valid_index_dec result k) ind) as [|Hex]; [done|].
  by rewrite getunique_invalid in Hget.
Qed.

Lemma keep_new_app result seen ind more :
  ∃ rest,
    keep_new result seen (ind ++ more) = keep_new result seen ind ++ rest
    ∧ rest `sublist_of` more.
Proof.
  revert seen. induction ind as [|k ind IH]; intros seen.
  - exists (keep_new result seen more). split; [done|].
    apply keep_new_sublist.
  - cbn [app keep_new]. case_bool_decide.
    + apply IH.
    + destruct (IH (seen ++ [name_of result k])) as (rest & -> & Hrest).
      by exists rest.
Qed.

Lemma keep_new_same_length result seen ind :
  length (keep_new result seen ind) = length ind →
  keep_new result seen ind = ind.
Proof.
  revert seen. induction ind as [|k ind IH]; intros seen; [done|].
  cbn [keep_new]. case_bool_decide.
  - intros Hlen.
    pose proof (sublist_length _ _ (keep_new_sublist result seen ind)).
    simpl in Hlen. lia.
  - simpl. intros [= Hlen]. f_equal. by apply IH.
Qed.

Lemma keep_new_distinct result seen ind :
  NoDup (map (name_of result) ind) →
  (∀ k, k ∈ ind → name_of result k ∉ seen) →
  keep_new result seen ind = ind.
Proof.
  revert seen. induction ind as [|k ind IH]; intros seen Hnd Hnew; [done|].
  cbn [map] in Hnd. apply NoDup_cons in Hnd as [Hk Hnd].
  cbn [keep_new]. rewrite bool_decide_eq_false_2 by (apply Hnew; by left).
  f_equal. apply IH; [done|].
  intros k' Hk' [Hin|Hin%list_elem_of_singleton]%elem_of_app.
  - apply (Hnew k'); [by right|done].
  - apply Hk. rewrite <- Hin. by apply list_elem_of_fmap_2.
Qed.

(** X6: for indices that fit the machine word, [getunique] raises
    [IndexError] exactly when one of the indices it is given lies outside
    the collection, wherever in the list it stands and whatever the indices
    before it; on indices inside the collection, negative ones counted from
    the end included, and on no others, it returns a list. *)
Theorem getunique_index_error_iff_out_of_range
    (result : list RegistryResource) (ind : list Z) :
  Forall machine_index ind →
  (Forall (valid_index result) ind ↔
   ∃ unique_ind, getunique result ind = Ret unique_ind)
  ∧ (Exists (λ k, ¬ valid_index result k) ind ↔
     getunique result ind = Raise IndexError).
Proof.
  intros _. split; split.
  - intros Hvalid. eexists. by apply getunique_keep_new.
  - intros [unique_ind Hget]. by eapply getunique_Ret_valid.
  - apply getunique_invalid.
  - intros Hget.
    destruct (Forall_Exists_dec (valid_index result)
                (λ k, ¬ valid_index result k)
                (λ k, valid_index_dec result k) ind) as [Hvalid|]; [|done].
    by rewrite getunique_keep_new in Hget.
Qed.

Lemma getunique_index_error_iff_out_of_range_witness :
  Forall machine_index [1; 8; 0]
  ∧ Exists (λ k, ¬ valid_index eight k) [1; 8; 0]
  ∧ getunique eight [1; 8; 0] = Raise IndexError
  ∧ ∃ unique_ind, getunique eight [1; -8; 0] = Ret unique_ind.
Proof.
  assert (∀ k, - 8 ≤ k ≤ 8 → machine_index k) as Hword.
  { intros k Hk. unfold machine_index.
    change (2 ^ 63) with 9223372036854775808. lia. }
  assert (Forall machine_index [1; 8; 0]) as H1.
  { repeat (constructor; [apply Hword; lia|]). constructor. }
  assert (Forall machine_index [1; -8; 0]) as H2.
  { repeat (constructor; [apply Hword; lia|]). constructor. }
  assert (Exists (λ k, ¬ valid_index eight k) [1; 8; 0]) as H3.
  { apply Exists_cons_tl, Exists_cons_hd. unfold valid_index. simpl. lia. }
  assert (Forall (valid_index eight) [1; -8; 0]) as H4.
  { repeat (constructor; [unfold valid_index; simpl; lia|]). constructor. }
  split_and!; [done..| |].
  - by apply (getunique_index_error_iff_out_of_range eight _ H1).
  - by apply (getunique_index_error_iff_out_of_range eight _ H2).
Defined.

(** X7: what [getunique] has kept of an index list stays when the list is
    extended: on the longer list it returns the same indices, followed by
    some of the added ones in their order. *)
Theorem getunique_extended_list
    (result : list RegistryResource) (ind more unique_ind : list Z) :
  getunique result ind = Ret unique_ind →
  Forall (valid_index result) more →
  ∃ rest,
    getunique result (ind ++ more) = Ret (unique_ind ++ rest)
    ∧ rest `sublist_of` more.
Proof.
  intros Hget Hmore.
  pose proof (getunique_Ret_valid _ _ _ Hget) as Hvalid.
  rewrite getunique_keep_new in Hget by done. injection Hget as <-.
  destruct (keep_new_app result [] ind more) as (rest & Hrest & Hsub).
  exists rest. split; [|done].
  rewrite getunique_keep_new by (by apply Forall_app).
  by rewrite Hrest.
Qed.

Lemma getunique_extended_list_witness :
  getunique eight [1; 0] = Ret [1; 0]
  ∧ Forall (valid_index eight) [4; 2; 0]
  ∧ ∃ rest, getunique eight ([1; 0] ++ [4; 2; 0]) = Ret ([1; 0] ++ rest)
            ∧ rest `sublist_of` [4; 2; 0].
Proof.
  assert (getunique eight [1; 0] = Ret [1; 0]) as H1
    by (vm_compute; reflexivity).
  assert (Forall (valid_index eight) [4; 2; 0]) as H2.
  { repeat (constructor; [unfold valid_index; simpl; lia|]). constructor. }
  split_and!; [done..|].
  exact (getunique_extended_list eight _ _ _ H1 H2).
Defined.

(** X8: the two lengths the notebook prints are equal exactly when no two
    indices of the list point at records with the same short name, and in
    that case [getunique] returns the list as it is. *)
Theorem getunique_same_length_iff_distinct
    (result : list RegistryResource) (ind unique_ind : list Z) :
  getunique result ind = Ret unique_ind →
  (length unique_ind = length ind ↔
   NoDup (map (shortName_at result) ind))
  ∧ (unique_ind = ind ↔ NoDup (map (shortName_at result) ind)).
Proof.
  intros Hget.
  pose proof (getunique_Ret_valid _ _ _ Hget) as Hvalid.
  rewrite getunique_keep_new in Hget by done. injection Hget as <-.
  assert (map (shortName_at result) ind
          = map Ret (map (name_of result) ind)) as ->.
  { rewrite map_map. apply map_ext_Forall.
    eapply Forall_impl; [exact Hvalid|].
    intros k Hk. by apply shortName_at_valid. }
  assert (Inj (=) (=) (@Ret str)) by (by intros ?? [= ->]).
  assert (NoDup (map (name_of result) ind) →
          keep_new result [] ind = ind) as Hid.
  { intros Hnd. apply keep_new_distinct; [done|].
    by intros ? _ ?%elem_of_nil. }
  assert (keep_new result [] ind = ind →
          NoDup (map (name_of result) ind)) as Hnd.
  { intros Heq. destruct (keep_new_names result [] ind) as [Hnd _].
    by rewrite Heq in Hnd. }
  split; split.
  - intros Hlen%keep_new_same_length. by apply (NoDup_fmap_2 Ret), Hnd.
  - intros Hnames%(NoDup_fmap_1 Ret). by rewrite Hid.
  - intros Heq. by apply (NoDup_fmap_2 Ret), Hnd.
  - intros Hnames%(NoDup_fmap_1 Ret). by apply Hid.
Qed.

Lemma getunique_same_length_iff_distinct_witness :
  getunique five [1; 3] = Ret [1; 3]
  ∧ NoDup (map (shortName_at five) [1; 3]).
Proof.
  assert (getunique five [1; 3] = Ret [1; 3]) as H
    by (vm_compute; reflexivity).
  split; [exact H|].
  destruct (getunique_same_length_iff_distinct five _ _ H) as [[Hnd _] _].
  by apply Hnd.
Defined.

(* ===================================================================== *)
(** * The lookups by bibcode on any collection *)
(* ===================================================================== *)

Lemma contains_refl (x : str) : contains x x = true.
Proof. apply contains_occurs. exists [], []. by rewrite app_nil_r. Qed.

Lemma occurs_in_short (each text : str) :
  occurs_in each text → (length text ≤ length each)%nat → text = each.
Proof.
  intros (before & after & ->). rewrite !length_app. intros Hlen.
  destruct before; [|simpl in Hlen; lia].
  destruct after; [|simpl in Hlen; lia].
  by rewrite app_nil_r.
Qed.

Lemma np_where_eq_sorted (column : list str) (x : str) (i : Z) :
  StronglySorted Z.lt (np_where_eq column x i).
Proof.
  revert i. induction column as [|v column IH]; intros i; simpl;
    [constructor|].
  case_bool_decide; [|by apply IH].
  constructor; [by apply IH|].
  apply Forall_forall. intros k (n & v' & -> & _)%np_where_eq_spec. lia.
Qed.

Lemma rstrip_nul_prefix (s : str) : rstrip_nul s `prefix_of` s.
Proof.
  induction s as [|c s IH]; [apply prefix_nil|]. cbn [rstrip_nul].
  destruct (rstrip_nul s) as [|d r] eqn:E.
  - case_bool_decide; [apply prefix_nil|]. apply prefix_cons, prefix_nil.
  - by apply prefix_cons.
Qed.

Lemma rstrip_nul_occurs (s b : str) : rstrip_nul s = b → occurs_in b s.
Proof.
  intros <-. destruct (rstrip_nul_prefix s) as [z Hz].
  by exists [], z.
Qed.

(** Indexing a column of the records with the array of [np.where]: the
    values of the records with that bibcode, up to NUL characters at the
    end, in the order of the collection. *)
Lemma np_where_take {A} (f : RegistryResource → A)
    (pre rows : list RegistryResource) (bibcode : str) :
  np_take (map f (pre ++ rows))
    (np_where_eq (map source_value rows) bibcode (Z.of_nat (length pre)))
  = Ret (map f (filter (λ row, rstrip_nul (source_value row)
                                = rstrip_nul bibcode) rows)).
Proof.
  revert pre. induction rows as [|row rows IH]; intros pre; [done|].
  specialize (IH (pre ++ [row])).
  rewrite <- app_assoc, length_app, Nat2Z.inj_add in IH. simpl in IH.
  change (Z.of_nat 1) with 1 in IH.
  cbn [map np_where_eq]. rewrite filter_cons.
  case_bool_decide as Hrow.
  - rewrite decide_True by done. cbn [np_take map].
    rewrite (getitem_nat _ _ (f row)).
    2:{ rewrite list_lookup_fmap, list_lookup_middle; done. }
    cbn [bind]. by rewrite IH.
  - rewrite decide_False by done. apply IH.
Qed.

Lemma np_take_length {A} (column : list A) (positions : list Z) vs :
  np_take column positions = Ret vs → length vs = length positions.
Proof.
  revert vs. induction positions as [|k positions IH]; intros vs; simpl.
  - by intros [= <-].
  - destruct (getitem column k); [|done]. cbn [bind].
    destruct (np_take column positions) as [vs'|]; [|done]. cbn [bind].
    intros [= <-]. simpl. f_equal. by apply IH.
Qed.

Lemma bibcode_where_Ret (tap_services : list RegistryResource)
    (bibcode : str) :
  bibcode_where tap_services bibcode
  = Ret (np_where_eq (map source_value tap_services) bibcode 0,
         map access_url
           (filter (λ row, rstrip_nul (source_value row)
                           = rstrip_nul bibcode) tap_services)).
Proof.
  unfold bibcode_where. cbv zeta.
  pose proof (np_where_take access_url [] tap_services bibcode) as Htake.
  cbn [app length] in Htake. change (Z.of_nat 0) with 0 in Htake.
  by rewrite Htake.
Qed.

Lemma np_where_eq_rows (tap_services : list RegistryResource)
    (bibcode : str) (k : Z) :
  k ∈ np_where_eq (map source_value tap_services) bibcode 0 ↔
  ∃ (n : nat) row, k = Z.of_nat n ∧ tap_services !! n = Some row
                   ∧ rstrip_nul (source_value row) = rstrip_nul bibcode.
Proof.
  rewrite np_where_eq_spec. split.
  - intros (n & v & -> & Hn & Hv). rewrite list_lookup_fmap in Hn.
    destruct (tap_services !! n) as [row|] eqn:Hrow; [|done].
    injection Hn as <-. by exists n, row.
  - intros (n & row & -> & Hrow & Hb). exists n, (source_value row).
    split_and!; [done| |done]. by rewrite list_lookup_fmap, Hrow.
Qed.

Lemma bibcode_scan_miss_idx rows bibcode i ses :
  Forall (λ s, contains (source_value s) bibcode = false) rows →
  idx (bibcode_scan rows bibcode i (set_idx i ses))
  = Some (i + Z.of_nat (length rows)).
Proof.
  intros Hmiss. revert i ses.
  induction Hmiss as [|s rows Hs _ IH]; intros i ses.
  - simpl. f_equal. lia.
  - cbn [bibcode_scan]. rewrite Hs, IH. f_equal. simpl length. lia.
Qed.

Lemma not_occurs_contains (rows : list RegistryResource) (bibcode : str) :
  Forall (λ s, ¬ occurs_in bibcode (source_value s)) rows →
  Forall (λ s, contains (source_value s) bibcode = false) rows.
Proof.
  intros Hmiss. eapply Forall_impl; [exact Hmiss|].
  intros s Hs. apply not_true_is_false. by rewrite contains_occurs.
Qed.

(** X9: the [np.where] cell never raises, whatever the collection and the
    bibcode.  Its array [match] holds, in increasing order, exactly the
    positions of the records whose [source_value] is the bibcode for the
    comparison of the array, which leaves NUL characters at the end of
    either string out, and [url] holds the access urls of these records in
    the same order, one for each position, repeated urls included. *)
Theorem bibcode_where_selects_equal_source_values
    (tap_services : list RegistryResource) (bibcode : str) :
  let selected :=
    filter (λ row, rstrip_nul (source_value row) = rstrip_nul bibcode)
      tap_services in
  ∃ match_ url,
    bibcode_where tap_services bibcode = Ret (match_, url)
    ∧ StronglySorted Z.lt match_
    ∧ (∀ k, k ∈ match_ ↔
         ∃ (n : nat) row, k = Z.of_nat n ∧ tap_services !! n = Some row
                          ∧ rstrip_nul (source_value row)
                            = rstrip_nul bibcode)
    ∧ np_take tap_services match_ = Ret selected
    ∧ url = map access_url selected
    ∧ length url = length match_.
Proof.
  intros selected. eexists _, _. split; [apply bibcode_where_Ret|].
  pose proof (np_where_take (λ row, row) [] tap_services bibcode) as Htake.
  cbn [app length] in Htake. change (Z.of_nat 0) with 0 in Htake.
  rewrite !map_id in Htake.
  split_and!.
  - apply np_where_eq_sorted.
  - apply np_where_eq_rows.
  - exact Htake.
  - done.
  - rewrite length_map. by apply np_take_length in Htake.
Qed.

(** X10: the loop cell stops at the first record whose [source_value]
    contains the bibcode, as a substring and not only as a whole: in every
    session it binds [myTAP] to that record and [idx] and [myidx] to its
    position, and prints the line of that record and no other. *)
Theorem bibcode_cell_stops_at_first_containing_record
    (tap_services before after : list RegistryResource)
    (s : RegistryResource) (bibcode : str) (ses : session) :
  tap_services = before ++ s :: after →
  Forall (λ s', ¬ occurs_in bibcode (source_value s')) before →
  occurs_in bibcode (source_value s) →
  bibcode_cell tap_services bibcode ses
  = (Ret s,
     {| idx := Some (Z.of_nat (length before));
        myidx := Some (Z.of_nat (length before));
        tablename := tablename ses;
        stdout := stdout ses ++ [bibcode_line s] |}).
Proof.
  intros -> Hbefore Hs. apply bibcode_cell_hit.
  - by apply not_occurs_contains.
  - by apply contains_occurs.
Qed.

Lemma bibcode_cell_stops_at_first_containing_record_witness :
  ∃ s, five !! 1%nat = Some s
       ∧ bibcode_cell five (lit "1970MmRAS") used
         = (Ret s,
            {| idx := Some 1; myidx := Some 1;
               tablename := tablename used;
               stdout := [bibcode_line s] |}).
Proof.
  eexists. split; [reflexivity|].
  apply (bibcode_cell_stops_at_first_containing_record five
           (take 1 five) (drop 2 five) _ (lit "1970MmRAS") used).
  - reflexivity.
  - constructor; [|constructor].
    intros Hs%contains_occurs. vm_compute in Hs. discriminate.
  - apply contains_occurs. vm_compute. reflexivity.
Defined.

(** X11: when no [source_value] contains the bibcode, the loop cell prints
    nothing and binds nothing but [idx], which ends at the last position; the
    record it takes for [myTAP] is then the one at the index an earlier cell
    has left in [myidx], and the cell stops with [NameError] when there is no
    such binding and with [IndexError] when that index is out of range. *)
Theorem bibcode_cell_without_hit_reads_old_myidx
    (tap_services : list RegistryResource) (bibcode : str) (ses : session) :
  Forall (λ s, ¬ occurs_in bibcode (source_value s)) tap_services →
  bibcode_cell tap_services bibcode ses
  = (match myidx ses with
     | None => Raise NameError
     | Some k =>
         if decide (valid_index tap_services k) then getitem tap_services k
         else Raise IndexError
     end,
     {| idx := Some (Z.of_nat (length tap_services) - 1);
        myidx := myidx ses;
        tablename := tablename ses;
        stdout := stdout ses |}).
Proof.
  intros Hmiss%not_occurs_contains. unfold bibcode_cell. cbv zeta.
  pose proof (bibcode_scan_miss tap_services bibcode (-1)
                (set_idx (-1) ses) Hmiss) as (Hmy & Htab & Hout).
  pose proof (bibcode_scan_miss_idx tap_services bibcode (-1) ses Hmiss)
    as Hidx.
  rewrite (session_eta (bibcode_scan _ _ _ _)), Hidx, Hmy, Htab, Hout.
  cbn [myidx tablename stdout set_idx]. f_equal.
  - destruct (myidx ses) as [k|]; [|done]. cbn [read bind].
    destruct (decide (valid_index tap_services k)) as [|Hk]; [done|].
    destruct (getitem tap_services k) as [row|e] eqn:Hrow.
    + destruct Hk. by eapply getitem_Ret_valid.
    + by apply getitem_Raise in Hrow as ->.
  - f_equal. f_equal. lia.
Qed.

Lemma bibcode_cell_without_hit_reads_old_myidx_witness :
  ∃ row, five !! 0%nat = Some row
         ∧ bibcode_cell five (lit "0000ZZZ") used
           = (Ret row,
              {| idx := Some 4; myidx := Some 0;
                 tablename := tablename used; stdout := [] |}).
Proof.
  eexists. split; [reflexivity|].
  apply (bibcode_cell_without_hit_reads_old_myidx five (lit "0000ZZZ") used).
  repeat (constructor;
          [intros Hs%contains_occurs; vm_compute in Hs; discriminate|]).
  constructor.
Defined.

(** X12: for a bibcode that does not end in a NUL character, as the one
    the two cells assign: whenever the [np.where] cell selects a record, the
    loop cell binds [myTAP] in every session, to a record at or before the
    first selected position whose [source_value] contains the bibcode.  The
    two cells take the same record exactly when that [source_value] is the
    bibcode for the comparison of the array, which is the case when no
    [source_value] of the collection is longer than the bibcode. *)
Theorem bibcode_cell_at_or_before_first_equal_record
    (tap_services : list RegistryResource) (bibcode : str) (ses : session)
    (match_ : list Z) (url : list str) (k : Z) :
  rstrip_nul bibcode = bibcode →
  bibcode_where tap_services bibcode = Ret (match_, url) →
  head match_ = Some k →
  ∃ (j : nat) (row : RegistryResource),
    (bibcode_cell tap_services bibcode ses).1 = Ret row
    ∧ myidx (bibcode_cell tap_services bibcode ses).2 = Some (Z.of_nat j)
    ∧ tap_services !! j = Some row
    ∧ occurs_in bibcode (source_value row)
    ∧ Z.of_nat j ≤ k
    ∧ (Z.of_nat j = k ↔ rstrip_nul (source_value row) = bibcode)
    ∧ (Forall (λ s, (length (source_value s) ≤ length bibcode)%nat)
         tap_services → Z.of_nat j = k).
Proof.
  intros Hnul. rewrite bibcode_where_Ret. intros [= <- _] Hhead.
  set (match_ := np_where_eq (map source_value tap_services) bibcode 0) in *.
  assert (StronglySorted Z.lt match_) as Hsorted by apply np_where_eq_sorted.
  destruct match_ as [|k' rest] eqn:Hmatch; [done|].
  injection Hhead as ->.
  assert (k ∈ np_where_eq (map source_value tap_services) bibcode 0) as Hk.
  { fold match_. rewrite Hmatch. by left. }
  apply np_where_eq_rows in Hk as (n & rowk & -> & Hn & Hrowk).
  rewrite Hnul in Hrowk.
  assert (contains (source_value rowk) bibcode = true) as Hcontains.
  { by apply contains_occurs, rstrip_nul_occurs. }
  assert (Exists (λ s, contains (source_value s) bibcode = true) tap_services)
    as Hex.
  { apply Exists_exists. exists rowk. split; [|done].
    by eapply list_elem_of_lookup_2. }
  apply first_hit in Hex as (before & s & after & Htap & Hbefore & Hs);
    [|solve_decision].
  assert (Forall (λ s', contains (source_value s') bibcode = false) before)
    as Hmiss.
  { eapply Forall_impl; [exact Hbefore|]. intros s' Hs'.
    by apply not_true_is_false. }
  assert (tap_services !! length before = Some s) as Hj.
  { rewrite Htap. by apply list_lookup_middle. }
  assert ((length before ≤ n)%nat) as Hle.
  { destruct (decide (length before ≤ n)%nat) as [|Hlt]; [done|].
    assert (before !! n = Some rowk) as Hin.
    { rewrite Htap, lookup_app_l in Hn by lia. done. }
    eapply Forall_lookup_1 in Hmiss; [|exact Hin]. simpl in Hmiss.
    by rewrite Hcontains in Hmiss. }
  assert (Z.of_nat (length before) = Z.of_nat n
          ↔ rstrip_nul (source_value s) = bibcode) as Hiff.
  { split.
    - intros Heq%Nat2Z.inj. rewrite Heq in Hj. by simplify_eq.
    - intros Hsb.
      assert (Z.of_nat (length before)
              ∈ np_where_eq (map source_value tap_services) bibcode 0) as Hin.
      { apply np_where_eq_rows. exists (length before), s.
        split_and!; [done..|]. by rewrite Hnul. }
      fold match_ in Hin. rewrite Hmatch in Hin.
      apply StronglySorted_inv in Hsorted as [_ Hrest].
      apply elem_of_cons in Hin as [|Hin]; [done|].
      eapply Forall_forall in Hrest; [|exact Hin]. lia. }
  exists (length before), s.
  rewrite Htap at 1 2. rewrite (bibcode_cell_hit _ _ _ _ ses Hmiss Hs).
  cbn [fst snd myidx].
  split_and!; [done..|by apply contains_occurs|lia|done|].
  intros Hlen. apply Hiff.
  rewrite (occurs_in_short bibcode (source_value s)); [done| |].
  - by apply contains_occurs.
  - eapply Forall_forall in Hlen; [exact Hlen|].
    by eapply list_elem_of_lookup_2.
Qed.

Lemma bibcode_cell_at_or_before_first_equal_record_witness :
  rstrip_nul eichhorn_bibcode = eichhorn_bibcode
  ∧ (∃ url, bibcode_where two_sources eichhorn_bibcode = Ret ([1], url))
  ∧ ∃ (j : nat) (row : RegistryResource),
      (bibcode_cell two_sources eichhorn_bibcode used).1 = Ret row
      ∧ myidx (bibcode_cell two_sources eichhorn_bibcode used).2
        = Some (Z.of_nat j)
      ∧ two_sources !! j = Some row
      ∧ occurs_in eichhorn_bibcode (source_value row)
      ∧ Z.of_nat j ≤ 1
      ∧ (Z.of_nat j = 1
         ↔ rstrip_nul (source_value row) = eichhorn_bibcode)
      ∧ (Forall (λ s, (length (source_value s)
                       ≤ length eichhorn_bibcode)%nat) two_sources
         → Z.of_nat j = 1).
Proof.
  assert (rstrip_nul eichhorn_bibcode = eichhorn_bibcode) as Hnul
    by (vm_compute; reflexivity).
  assert (bibcode_where two_sources eichhorn_bibcode
          = Ret ([1], [lit "http://tapvizier.u-strasbg.fr/TAPVizieR/tap"]))
    as Hwhere by (vm_compute; reflexivity).
  split_and!; [exact Hnul|by eexists|].
  exact (bibcode_cell_at_or_before_first_equal_record two_sources _ used
           _ _ 1 Hnul Hwhere eq_refl).
Defined.

(** X13: the second lookup by bibcode needs exactly one record with that
    [source_value].  With none, [all_shortnames[match][0]] stops the cell
    with [IndexError] before anything is printed.  With several, the cell
    prints the short name of the first of them and the dashes, and then
    [int(match[0])] stops it with [TypeError].  With one, the cell prints its
    short name and the dashes; where the array library still converts an
    array of one element, it then binds [ind] to the position of the record
    and the lines of [describe()] follow, and where it does not,
    [int(match[0])] stops the cell with [TypeError] here too. *)
Theorem bibcode_index_cell_needs_exactly_one_record
    (describe : RegistryResource → list str) (converts_one_element : bool)
    (tap_services : list RegistryResource) (bibcode : str) (ses : session) :
  let cell :=
    bibcode_index_cell describe converts_one_element tap_services bibcode
      ses in
  let printed (row : RegistryResource) :=
    print (lit "----------") (print (short_name row) ses) in
  match filter (λ row, rstrip_nul (source_value row) = rstrip_nul bibcode)
          tap_services with
  | [] => cell = (Raise IndexError, ses)
  | [row] =>
      if converts_one_element then
        ∃ n : nat,
          tap_services !! n = Some row
          ∧ cell = (Ret (short_name row, Z.of_nat n, row),
                    print_lines (describe row) (printed row))
      else cell = (Raise TypeError, printed row)
  | row :: _ :: _ => cell = (Raise TypeError, printed row)
  end.
Proof.
  intros cell printed. subst cell printed.
  unfold bibcode_index_cell. cbv zeta.
  pose proof (np_where_take short_name [] tap_services bibcode) as Hnames.
  pose proof (np_where_take (λ row, row) [] tap_services bibcode) as Hrows.
  cbn [app length] in Hnames, Hrows.
  change (Z.of_nat 0) with 0 in Hnames, Hrows. rewrite !map_id in Hrows.
  pose proof (np_where_eq_rows tap_services bibcode) as Hin.
  pose proof (np_take_length _ _ _ Hrows) as Hlen.
  rewrite Hnames. cbn [bind].
  destruct (filter _ tap_services) as [|row [|row' hits]];
    destruct (np_where_eq _ bibcode 0) as [|k [|k' match_]]; try done.
  cbn [map]. rewrite (getitem_nat _ 0 (short_name row)) by done.
  destruct converts_one_element; [|done].
  destruct (proj1 (Hin k)) as (n & row0 & -> & Hn & _); [by left|].
  exists n. cbn [np_take bind] in Hrows.
  destruct (getitem tap_services (Z.of_nat n)) as [row1|] eqn:Hrow1;
    [|done].
  cbn [bind] in Hrows. injection Hrows as ->.
  rewrite (getitem_nat _ _ _ Hn) in Hrow1. injection Hrow1 as ->.
  split; [done|]. cbn [int_of_array bind].
  by rewrite (getitem_nat _ _ _ Hn).
Qed.

(* ===================================================================== *)
(** * The search by author *)
(* ===================================================================== *)

Lemma author_loop_run (resources : list RegistryResource) (url : list str) :
  author_loop resources url
  = if decide (Exists (λ record, creators record = []) resources)
    then Raise IndexError
    else Ret (url ++ map access_url
                       (filter (λ record,
                                  first_creator_is_Eichhorn record = true)
                               resources)).
Proof.
  revert url. induction resources as [|record resources IH]; intros url.
  - cbn [author_loop].
    destruct (decide (Exists _ [])) as [Hex|_];
      [by apply Exists_nil in Hex|].
    by rewrite filter_nil, app_nil_r.
  - cbn [author_loop].
    destruct (creators record) as [|first names] eqn:Hnames.
    + rewrite decide_True by (by left). done.
    + rewrite (getitem_nat _ 0 first) by done. cbn [bind].
      assert (Exists (λ record, creators record = []) (record :: resources)
              ↔ Exists (λ record, creators record = []) resources) as Hiff.
      { rewrite Exists_cons, Hnames. split; [by intros [?|?] | by right]. }
      assert (first_creator_is_Eichhorn record
              = contains first (lit "Eichhorn")) as Hfirst.
      { unfold first_creator_is_Eichhorn. by rewrite Hnames. }
      destruct (contains first (lit "Eichhorn")); rewrite IH;
        destruct (decide (Exists _ resources)) as [Hex|Hex].
      * by rewrite decide_True by (by apply Hiff).
      * rewrite decide_False by (by rewrite Hiff).
        rewrite filter_cons_True by done. cbn [map].
        by rewrite <- app_assoc.
      * by rewrite decide_True by (by apply Hiff).
      * rewrite decide_False by (by rewrite Hiff).
        by rewrite filter_cons_False by (by rewrite Hfirst).
Qed.

(** X14: the author cell looks at the first creator of each record only.
    When every record has a creator, [url] ends as the access urls of the
    records whose first creator mentions the author, in the order of the
    collection, whoever the later creators are; one record without any
    creator stops the cell with [IndexError], wherever it stands. *)
Theorem author_cell_first_creator_only (resources : list RegistryResource) :
  author_cell resources
  = if decide (Exists (λ record, creators record = []) resources)
    then Raise IndexError
    else Ret (map access_url
                (filter (λ record, first_creator_is_Eichhorn record = true)
                        resources)).
Proof. unfold author_cell. by rewrite author_loop_run. Qed.

(* ===================================================================== *)
(** * The table names of the second query *)
(* ===================================================================== *)

Lemma in_assign_cell_run (names : list str) (short : str) (ses : session) :
  in_assign_cell names short ses
  = {| idx := idx ses;
       myidx := myidx ses;
       tablename :=
         match last (filter (λ name, contains name short = true) names) with
         | Some t => Some t
         | None => tablename ses
         end;
       stdout := stdout ses |}.
Proof.
  revert ses. induction names as [|name names IH]; intros ses.
  - simpl. apply session_eta.
  - cbn [in_assign_cell]. rewrite IH, filter_cons.
    destruct (contains name short) eqn:Hname; simpl.
    + rewrite last_cons. by destruct (last (filter _ names)).
    + done.
Qed.

Lemma contains_nil (text : str) : contains text [] = true.
Proof. apply contains_occurs. by exists [], text. Qed.

Lemma startswith_contains (name short : str) :
  startswith name short = true → contains name short = true.
Proof.
  rewrite startswith_prefix, contains_occurs. intros [after ->].
  by exists [], after.
Qed.

(** X15: the cell that builds the second query takes the last table name
    that contains the short name.  When no name contains it, the loop binds
    nothing and the query is built, without any error, from the table name an
    earlier cell has left in [tablename]; the cell stops with [NameError]
    only when no cell has bound [tablename] before. *)
Theorem in_assign_query_last_containing_name
    (names : list str) (short : str) (ses : session) :
  in_assign_query names short ses
  = match last (filter (λ name, contains name short = true) names),
          tablename ses with
    | Some t, _ =>
        (Ret (select_from t),
         {| idx := idx ses; myidx := myidx ses; tablename := Some t;
            stdout := stdout ses ++ [select_from t] |})
    | None, Some old =>
        (Ret (select_from old),
         {| idx := idx ses; myidx := myidx ses; tablename := Some old;
            stdout := stdout ses ++ [select_from old] |})
    | None, None => (Raise NameError, ses)
    end.
Proof.
  unfold in_assign_query. rewrite in_assign_cell_run.
  destruct (last (filter _ names)) as [t|]; [done|].
  unfold query_cell. cbn [tablename].
  destruct (tablename ses) as [old|] eqn:Hold; cbn [read]; [done|].
  f_equal. rewrite <- Hold. symmetry. apply session_eta.
Qed.

(** X16: the names the [startswith] loop prints are among the names the
    [in] loop before it prints, in the same order, and both are key names in
    key order; the [in] loop of the later cell binds [tablename] to the last
    name the first [in] loop prints.  With an empty short name each loop
    takes every name. *)
Theorem startswith_cell_lines_among_in_cell_lines
    (names : list str) (short : str) (ses : session) :
  ∃ starting containing : list str,
    stdout (startswith_cell names short ses) = stdout ses ++ starting
    ∧ stdout (in_cell names short ses) = stdout ses ++ containing
    ∧ starting `sublist_of` containing
    ∧ containing `sublist_of` names
    ∧ tablename (in_cell names short ses) = tablename ses
    ∧ tablename (in_assign_cell names short ses)
      = match last containing with
        | Some t => Some t
        | None => tablename ses
        end
    ∧ (short = [] → starting = names ∧ containing = names).
Proof.
  exists (filter (λ name, startswith name short = true) names),
         (filter (λ name, contains name short = true) names).
  rewrite startswith_cell_run, in_cell_run, in_assign_cell_run.
  cbn [stdout tablename]. split_and!; try done.
  - rewrite (list_filter_iff (λ name, startswith name short = true)
               (λ name, startswith name short = true
                        ∧ contains name short = true)).
    + rewrite <- list_filter_filter. apply sublist_filter.
    + intros name. split; [|by intros [? _]].
      intros Hname. split; [done|]. by apply startswith_contains.
  - apply sublist_filter.
  - intros ->. split; apply filter_Forall_id, Forall_forall; intros name _.
    + done.
    + apply contains_nil.
Qed.

(* ===================================================================== *)
(** * The selections of [UseCase_II.ipynb] *)
(* ===================================================================== *)

Lemma filter_first {A} (test : A → bool) (before : list A) (x : A)
    (after : list A) :
  Forall (λ y, test y = false) before → test x = true →
  List.filter test (before ++ x :: after) = x :: List.filter test after.
Proof.
  intros Hbefore Hx. induction Hbefore as [|y before Hy _ IH]; simpl.
  - by rewrite Hx.
  - by rewrite Hy.
Qed.

Lemma filter_none {A} (test : A → bool) (l : list A) :
  Forall (λ y, test y = false) l → List.filter test l = [].
Proof.
  induction 1 as [|y l Hy _ IH]; simpl; [done|]. by rewrite Hy.
Qed.

Lemma first_or_none {A} (test : A → bool) (l : list A) :
  Forall (λ y, test y = false) l
  ∨ ∃ before x after,
      l = before ++ x :: after ∧ Forall (λ y, test y = false) before
      ∧ test x = true.
Proof.
  induction l as [|a l [IH|(before & x & after & -> & Hbefore & Hx)]].
  - left. constructor.
  - destruct (test a) eqn:Ha.
    + right. exists [], a, l. split_and!; [done|constructor|done].
    + left. by constructor.
  - right. destruct (test a) eqn:Ha.
    + exists [], a, (before ++ x :: after).
      split_and!; [done|constructor|done].
    + exists (a :: before), x, after. split_and!; [done| |done].
      by constructor.
Qed.

Lemma first_with_unique {A} (P : A → Prop) (l : list A) (x y : A) :
  first_with P l x → first_with P l y → x = y.
Proof.
  intros (b1 & a1 & -> & Hx & Hb1) (b2 & a2 & Heq & Hy & Hb2).
  revert b2 Heq Hb2. induction Hb1 as [|z b1 Hz _ IH]; intros b2 Heq Hb2.
  - destruct b2 as [|z b2]; simplify_eq/=; [done|].
    by apply Forall_cons in Hb2 as [? _].
  - destruct b2 as [|z' b2]; simplify_eq/=; [done|].
    apply Forall_cons in Hb2 as [_ Hb2]. by eapply IH.
Qed.

(** The comprehension [[x for x in l if test][0]]: the first element that
    passes the test, [IndexError] when none does. *)
Lemma first_of_filter {A} (test : A → bool) (P : A → Prop) (l : list A) :
  (∀ x, test x = true ↔ P x) →
  (∀ x, getitem (List.filter test l) 0 = Ret x ↔ first_with P l x)
  ∧ (getitem (List.filter test l) 0 = Raise IndexError ↔
     Forall (λ y, ¬ P y) l).
Proof.
  intros Htest.
  assert (∀ l', Forall (λ y, test y = false) l' ↔ Forall (λ y, ¬ P y) l')
    as Hnone.
  { intros l'. apply Forall_proper; [|done]. intros y.
    by rewrite <- Htest, not_true_iff_false. }
  destruct (first_or_none test l)
    as [Hl|(before & x0 & after & -> & Hbefore & Hx0)].
  - rewrite (filter_none _ _ Hl). split.
    + intros x. split; [done|].
      intros (b & a & -> & Hx & _). apply Hnone in Hl.
      apply Forall_app in Hl as [_ [Hl _]%Forall_cons]. done.
    + by rewrite <- Hnone.
  - rewrite (filter_first _ _ _ _ Hbefore Hx0).
    rewrite (getitem_nat _ 0 x0) by done.
    assert (first_with P (before ++ x0 :: after) x0) as Hfirst.
    { exists before, after. split_and!; [done| |].
      - by apply Htest.
      - by apply Hnone. }
    split.
    + intros x. split; [by intros [= <-]|].
      intros Hx. f_equal. by eapply first_with_unique.
    + split; [done|]. intros [_ [Hno _]%Forall_cons]%Forall_app.
      destruct Hno. by apply Htest.
Qed.






(** X17: each of the two GALEX selections is the first service of
    [uv_services], in the order of the registry answer, whose short name
    contains [GALEX] and whose identifier contains the name of the archive;
    it raises [IndexError] exactly when [uv_services] has no such service. *)
Theorem galex_selections_take_first_match
    (uv_services : list RegistryResource) :
  let at_ (archive : str) (s : RegistryResource) :=
    occurs_in (lit "GALEX") (short_name s) ∧ occurs_in archive (ivoid s) in
  (∀ s, galex_stsci uv_services = Ret s ↔
        first_with (at_ (lit "stsci")) uv_services s)
  ∧ (galex_stsci uv_services = Raise IndexError ↔
     Forall (λ s, ¬ at_ (lit "stsci") s) uv_services)
  ∧ (∀ s, galex_heasarc uv_services = Ret s ↔
          first_with (at_ (lit "heasarc")) uv_services s)
  ∧ (galex_heasarc uv_services = Raise IndexError ↔
     Forall (λ s, ¬ at_ (lit "heasarc") s) uv_services).
Proof.
  intros at_.
  assert (∀ archive s,
            contains (short_name s) (lit "GALEX")
            && contains (ivoid s) archive = true ↔ at_ archive s) as Htest.
  { intros archive s. unfold at_.
    by rewrite andb_true_iff, !contains_occurs. }
  destruct (first_of_filter _ _ uv_services (Htest (lit "stsci")))
    as [Hs1 Hs2].
  destruct (first_of_filter _ _ uv_services (Htest (lit "heasarc")))
    as [Hh1 Hh2].
  by split_and!.
Qed.

(** X18: [first_fits_image_row] is the first row of the image table whose
    format contains [image/fits], whatever stands after it in the format;
    the statement raises [IndexError] exactly when no row has such a
    format. *)
Theorem first_fits_image_row_takes_first_match (xim_table : list SIARecord) :
  (∀ x, first_fits_image_row xim_table = Ret x ↔
        first_with (λ x, occurs_in (lit "image/fits") (format x))
          xim_table x)
  ∧ (first_fits_image_row xim_table = Raise IndexError ↔
     Forall (λ x, ¬ occurs_in (lit "image/fits") (format x)) xim_table).
Proof.
  apply (first_of_filter (λ x, contains (format x) (lit "image/fits"))).
  intros x. apply contains_occurs.
Qed.


(* ===================================================================== *)
(** * The two calls on the store *)
(* ===================================================================== *)

Lemma getrow_store_new result keywords (h : gmap nat obj) (l : nat) :
  (getrow_store result keywords h).1 = Ret l → h !! l = None.
Proof.
  unfold getrow_store, bind_run, new_list, lift. cbv zeta.
  destruct keywords as [keywords|]; [|done].
  destruct (len _ _) as [[n|e] h1]; [|done].
  destruct (getrow_rows_store _ _ _ _ _ _ _) as [[[]|e] h2]; [|done].
  cbn. intros [= <-]. apply fresh_lookup.
Qed.

Lemma getunique_store_new result (ind : nat) (h : gmap nat obj) (l : nat) :
  (getunique_store result ind h).1 = Ret l → h !! l = None.
Proof.
  unfold getunique_store, bind_run, new_list. cbv zeta.
  destruct (len _ _) as [[n|e] h1]; [|done].
  destruct (getunique_loop_store _ _ _ _ _ _) as [[[]|e] h2]; [|done].
  cbn. intros [= <-].
  by pose proof (fresh_lookup (<[fresh (dom h) := StrList []]> h))
    as [? _]%lookup_insert_None.
Qed.

(** X20: on the store, the two calls in a row return two lists that did not
    exist before and that are two different objects, also when [getunique]
    has removed nothing: after both calls the list [ind] still holds what
    [getrow] has returned, the list [uniq_ind] holds what [getunique] has
    returned, and every list that existed before is as it was. *)
Theorem discover_store_returns_two_new_lists
    (tap_services : list RegistryResource) (keywords : str)
    (h : gmap nat obj) (ind uniq_ind : list Z) :
  discover tap_services keywords = Ret (ind, uniq_ind) →
  ∃ (l_ind l_uniq : nat) (h' : gmap nat obj),
    discover_store tap_services keywords h = (Ret (l_ind, l_uniq), h')
    ∧ h !! l_ind = None ∧ h !! l_uniq = None ∧ l_ind ≠ l_uniq
    ∧ int_items h' l_ind = Some ind
    ∧ int_items h' l_uniq = Some uniq_ind
    ∧ h ⊆ h'.
Proof.
  unfold discover. intros Hdiscover.
  destruct (getrow tap_services (Some keywords)) as [ind0|] eqn:Hgetrow;
    [|done].
  cbn [bind] in Hdiscover.
  destruct (getunique tap_services ind0) as [uniq0|] eqn:Hgetunique; [|done].
  injection Hdiscover as -> ->.
  destruct (getrow_store_run tap_services (Some keywords) h) as [Hsub1 Hret1].
  pose proof (getrow_store_new tap_services (Some keywords) h) as Hnew1.
  rewrite Hgetrow in Hret1.
  destruct (getrow_store tap_services (Some keywords) h) as [[l1|e] h1]
    eqn:Hrun1; [|done].
  cbn [returned] in Hret1.
  destruct (h1 !! l1) as [[items|items]|] eqn:Hl1; try done.
  injection Hret1 as ->.
  destruct (getunique_store_run tap_services h1 l1 ind Hl1) as [Hsub2 Hret2].
  pose proof (getunique_store_new tap_services l1 h1) as Hnew2.
  rewrite Hgetunique in Hret2.
  destruct (getunique_store tap_services l1 h1) as [[l2|e] h2] eqn:Hrun2;
    [|done].
  cbn [returned] in Hret2.
  destruct (h2 !! l2) as [[items|items]|] eqn:Hl2; try done.
  injection Hret2 as ->.
  specialize (Hnew1 l1 eq_refl). specialize (Hnew2 l2 eq_refl).
  cbn [snd] in Hsub1, Hsub2.
  exists l1, l2, h2. split_and!.
  - unfold discover_store, bind_run. by rewrite Hrun1, Hrun2.
  - done.
  - by eapply lookup_weaken_None.
  - intros ->. congruence.
  - unfold int_items. by rewrite (lookup_weaken _ _ _ _ Hl1 Hsub2).
  - unfold int_items. by rewrite Hl2.
  - by etrans.
Qed.

Lemma discover_store_returns_two_new_lists_witness :
  discover five (lit "magnitude color") = Ret ([1; 3], [1; 3])
  ∧ ∃ (l_ind l_uniq : nat) (h' : gmap nat obj),
      discover_store five (lit "magnitude color")
        {[0%nat := IntList [7]]} = (Ret (l_ind, l_uniq), h')
      ∧ ({[0%nat := IntList [7]]} : gmap nat obj) !! l_ind = None
      ∧ ({[0%nat := IntList [7]]} : gmap nat obj) !! l_uniq = None
      ∧ l_ind ≠ l_uniq
      ∧ int_items h' l_ind = Some [1; 3]
      ∧ int_items h' l_uniq = Some [1; 3]
      ∧ ({[0%nat := IntList [7]]} : gmap nat obj) ⊆ h'.
Proof.
  assert (discover five (lit "magnitude color") = Ret ([1; 3], [1; 3])) as H
    by (vm_compute; reflexivity).
  split; [exact H|].
  exact (discover_store_returns_two_new_lists five (lit "magnitude color")
           {[0%nat := IntList [7]]} _ _ H).
Defined.

(* ===================================================================== *)
(** * The cells on the sample data *)
(* ===================================================================== *)

(** The record whose second creator is the author is passed over, and the
    url shared by two records comes twice. *)
Example author_cell_three_authored :
  author_cell three_authored = Ret [lit "http://a"; lit "http://a"].
Proof. vm_compute. reflexivity. Qed.

(** The loop of the band cell stops at the second of the three images; with
    no image of the band in the table it ends on the last one. *)
Example allwise_cell_three_images :
  allwise_cell three_images None
  = (Ret (lit "W1 Coadd 2092p393_ac51 W1"), three_images !! 1%nat)
  ∧ allwise_search (take 1 three_images) = None
  ∧ allwise_cell (take 1 three_images) None
    = (Ret (lit "W3 Coadd 2092p393_ac51 W3"), three_images !! 0%nat).
Proof. split_and!; vm_compute; reflexivity. Qed.
